(** * webmlive: the command-line drivers of the live WebM encoder and uploader

    A shallow embedding of the two driver programs of the repository,

    - [http_client/http_client_main.cc] (the 2011 HTTP client: a file reader,
      a chunk buffer and an uploader polled from one loop), and
    - the encoder driver (the 2012 program: command-line parser, parameter
      validation, [start_uploader], [encoder_main]),

    together with the components behind them ([WebmChunkBuffer],
    [HttpUploader]) whose sources are in other files of the project. *)

From Stdlib Require Import ZArith Ascii String Lia.
From Stdlib.Strings Require Import Byte.
From Stdlib Require QArith.
From stdpp Require Import base option list strings gmap.

Open Scope Z_scope.
Open Scope string_scope.
Open Scope list_scope.

(** ** Status codes *)

(** The anonymous enum of the encoder driver. *)
Definition kBadFormat : Z := -3.
Definition kNoMemory : Z := -2.
Definition kInvalidArg : Z := -1.
Definition kSuccess : Z := 0.

(** [<cstdlib>]. *)
Definition EXIT_SUCCESS : Z := 0.
Definition EXIT_FAILURE : Z := 1.

(** [<winerror.h>], used by the 2011 client. *)
Definition ERROR_SUCCESS : Z := 0.
Definition ERROR_BAD_FORMAT : Z := 11.

(** ** [std::string] *)

Module StdString.

(** [s.find(c)]: the index of the first [c] in [s]; [None] is [npos]. *)
Fixpoint find (c : ascii) (s : string) : option nat :=
  match s with
  | EmptyString => None
  | String a rest => if Ascii.eqb a c then Some 0%nat else S <$> find c rest
  end.

(** [s.substr(0, n)]. *)
Fixpoint take (n : nat) (s : string) : string :=
  match n, s with
  | S n', String a rest => String a (take n' rest)
  | _, _ => EmptyString
  end.

(** [s.substr(n)], for [n <= s.size()]. *)
Fixpoint drop (n : nat) (s : string) : string :=
  match n, s with
  | S n', String _ rest => drop n' rest
  | _, _ => s
  end.

(** [std::string(s.c_str())]: a C string ends at the first NUL. *)
Fixpoint c_str (s : string) : string :=
  match s with
  | EmptyString => EmptyString
  | String a rest => if Ascii.eqb a Ascii.zero then EmptyString else String a (c_str rest)
  end.

(** [s[pos]] for [pos <= s.size()]: at [pos = s.size()] the standard gives a
    reference to the terminating NUL character. *)
Fixpoint at_ (pos : nat) (s : string) : ascii :=
  match s, pos with
  | EmptyString, _ => Ascii.zero
  | String a _, O => a
  | String _ rest, S pos' => at_ pos' rest
  end.

Definition empty (s : string) : bool :=
  match s with EmptyString => true | _ => false end.

End StdString.

(** ** [store_string_map_entries] *)

(** The function is the same in both drivers but for the two status
    constants, which are the section's variables. *)
Section StoreStringMapEntries.

Variables (status_success status_bad_format : Z).

(** The loop over [unparsed_entries]; [out_map[k] = v] inserts or overwrites. *)
Fixpoint store_entries (unparsed_entries : list string)
    (out_map : gmap string string) : Z * gmap string string :=
  match unparsed_entries with
  | [] => (status_success, out_map)
  | entry :: rest =>
      match StdString.find ":" entry with
      | None => (status_bad_format, out_map)
      | Some sep =>
          store_entries rest
            (<[StdString.c_str (StdString.take sep entry) :=
                 StdString.drop (sep + 1) entry]> out_map)
      end
  end.

End StoreStringMapEntries.

(** The encoder driver's instance. *)
Definition store_string_map_entries := store_entries kSuccess kBadFormat.

(** The 2011 client's instance. *)
Definition client_store_string_map_entries :=
  store_entries ERROR_SUCCESS ERROR_BAD_FORMAT.

(** What one well-formed entry binds: the name before the first colon, cut at
    a NUL, and everything after that colon. *)
Definition entry_binding (entry : string) : option (string * string) :=
  sep ← StdString.find ":" entry;
  Some (StdString.c_str (StdString.take sep entry), StdString.drop (sep + 1) entry).

Definition well_formed_entry (entry : string) : Prop :=
  is_Some (StdString.find ":" entry).

(** ** Settings *)

Inductive HttpPostMode := HTTP_POST | HTTP_FORM_POST.

(** [webmlive::HttpUploaderSettings], with the members the drivers touch. *)
Record HttpUploaderSettings := {
  local_file : string;
  target_url : string;
  headers : gmap string string;
  form_variables : gmap string string;
  post_mode : HttpPostMode;
  stream_name : string;
  stream_id : string
}.

Definition set_target_url (v : string) (s : HttpUploaderSettings) :=
  {| local_file := local_file s; target_url := v; headers := headers s;
     form_variables := form_variables s; post_mode := post_mode s;
     stream_name := stream_name s; stream_id := stream_id s |}.

Definition set_headers (v : gmap string string) (s : HttpUploaderSettings) :=
  {| local_file := local_file s; target_url := target_url s; headers := v;
     form_variables := form_variables s; post_mode := post_mode s;
     stream_name := stream_name s; stream_id := stream_id s |}.

Definition set_form_variables (v : gmap string string) (s : HttpUploaderSettings) :=
  {| local_file := local_file s; target_url := target_url s; headers := headers s;
     form_variables := v; post_mode := post_mode s;
     stream_name := stream_name s; stream_id := stream_id s |}.

Definition set_post_mode (v : HttpPostMode) (s : HttpUploaderSettings) :=
  {| local_file := local_file s; target_url := target_url s; headers := headers s;
     form_variables := form_variables s; post_mode := v;
     stream_name := stream_name s; stream_id := stream_id s |}.

Definition set_stream_name (v : string) (s : HttpUploaderSettings) :=
  {| local_file := local_file s; target_url := target_url s; headers := headers s;
     form_variables := form_variables s; post_mode := post_mode s;
     stream_name := v; stream_id := stream_id s |}.

Definition set_stream_id (v : string) (s : HttpUploaderSettings) :=
  {| local_file := local_file s; target_url := target_url s; headers := headers s;
     form_variables := form_variables s; post_mode := post_mode s;
     stream_name := stream_name s; stream_id := v |}.

(** One assignment to a member of [webmlive::WebmEncoderConfig] other than the
    DASH members: the members for capture devices and codecs are declared in
    headers outside these files, so an assignment is kept as the option that
    made it and, for an option with a value, the text handed to
    [strtol]/[strtod] or copied. *)
Inductive encoder_setting :=
  | Switch (option_name : string)
  | Value (option_name value : string).

(** [webmlive::WebmEncoderConfig]: the DASH members, and the other assignments
    in the order they were made. *)
Record EncoderConfig := {
  dash_encode : bool;
  dash_dir : string;
  dash_name : string;
  dash_start_number : string;
  other_settings : list encoder_setting
}.

Definition set_dash_encode (v : bool) (c : EncoderConfig) :=
  {| dash_encode := v; dash_dir := dash_dir c; dash_name := dash_name c;
     dash_start_number := dash_start_number c; other_settings := other_settings c |}.

Definition set_dash_dir (v : string) (c : EncoderConfig) :=
  {| dash_encode := dash_encode c; dash_dir := v; dash_name := dash_name c;
     dash_start_number := dash_start_number c; other_settings := other_settings c |}.

Definition set_dash_name (v : string) (c : EncoderConfig) :=
  {| dash_encode := dash_encode c; dash_dir := dash_dir c; dash_name := v;
     dash_start_number := dash_start_number c; other_settings := other_settings c |}.

Definition set_dash_start_number (v : string) (c : EncoderConfig) :=
  {| dash_encode := dash_encode c; dash_dir := dash_dir c; dash_name := dash_name c;
     dash_start_number := v; other_settings := other_settings c |}.

Definition add_setting (e : encoder_setting) (c : EncoderConfig) :=
  {| dash_encode := dash_encode c; dash_dir := dash_dir c; dash_name := dash_name c;
     dash_start_number := dash_start_number c;
     other_settings := other_settings c ++ [e] |}.

(** The driver's own [WebmEncoderConfig] struct. *)
Record WebmEncoderConfig := {
  uploader_settings : HttpUploaderSettings;
  enc_config : EncoderConfig
}.

(** ** [parse_command_line] *)

(** [argv]: a [None] entry is a null pointer; [argc] is the list's length. *)
Definition arguments := list (option string).

(** [bool arg_has_value(arg_index, argc, argv)]. *)
Definition arg_has_value (arg_index : nat) (argv : arguments) : bool :=
  let val_index := (arg_index + 1)%nat in
  match argv !! val_index with
  | Some (Some _) => true
  | _ => false
  end.

(** [argv[++i]], read only under [arg_has_value]. *)
Definition arg_value (arg_index : nat) (argv : arguments) : string :=
  match argv !! (arg_index + 1)%nat with
  | Some (Some v) => v
  | _ => EmptyString
  end.

(** [!strcmp(a, b)]. *)
Definition streq (a b : string) : bool := String.eqb a b.

(** The locals of [parse_command_line]. *)
Record parse_state := {
  config : WebmEncoderConfig;
  unparsed_headers : list string;
  unparsed_vars : list string
}.

Definition on_uploader (f : HttpUploaderSettings → HttpUploaderSettings)
    (st : parse_state) : parse_state :=
  {| config := {| uploader_settings := f (uploader_settings (config st));
                  enc_config := enc_config (config st) |};
     unparsed_headers := unparsed_headers st;
     unparsed_vars := unparsed_vars st |}.

Definition on_encoder (f : EncoderConfig → EncoderConfig)
    (st : parse_state) : parse_state :=
  {| config := {| uploader_settings := uploader_settings (config st);
                  enc_config := f (enc_config (config st)) |};
     unparsed_headers := unparsed_headers st;
     unparsed_vars := unparsed_vars st |}.

Definition push_header (v : string) (st : parse_state) : parse_state :=
  {| config := config st;
     unparsed_headers := unparsed_headers st ++ [v];
     unparsed_vars := unparsed_vars st |}.

Definition push_var (v : string) (st : parse_state) : parse_state :=
  {| config := config st;
     unparsed_headers := unparsed_headers st;
     unparsed_vars := unparsed_vars st ++ [v] |}.

(** How a branch of the chain for capture and codec options reads its
    argument: a plain switch; a switch guarded by [arg_has_value] that leaves
    [i] alone ([--vp9_disable_fpd]); an option that takes [argv[++i]]; and
    [--vpx_codec], which takes it and assigns for [vp8] and [vp9] only. *)
Inductive option_kind := PlainSwitch | GuardedSwitch | TakesValue | TakesCodec.

(** The branches from [--adev] to [--vp9_disable_fpd], in source order. *)
Definition encoder_options : list (string * option_kind) :=
  [ ("--adev", TakesValue); ("--adevidx", TakesValue);
    ("--achannels", TakesValue); ("--adisable", PlainSwitch);
    ("--amanual", PlainSwitch); ("--arate", TakesValue);
    ("--asize", TakesValue);
    ("--vdisable", PlainSwitch); ("--vdev", TakesValue);
    ("--vdevidx", TakesValue); ("--vmanual", PlainSwitch);
    ("--vwidth", TakesValue); ("--vheight", TakesValue);
    ("--vframe_rate", TakesValue);
    ("--vorbis_bitrate", TakesValue); ("--vorbis_minimum_bitrate", TakesValue);
    ("--vorbis_maximum_bitrate", TakesValue);
    ("--vorbis_disable_vbr", PlainSwitch);
    ("--vorbis_iblock_bias", TakesValue);
    ("--vorbis_lowpass_frequency", TakesValue);
    ("--vpx_keyframe_interval", TakesValue); ("--vpx_bitrate", TakesValue);
    ("--vpx_codec", TakesCodec); ("--vpx_decimate", TakesValue);
    ("--vpx_min_q", TakesValue); ("--vpx_max_q", TakesValue);
    ("--vpx_noise_sensitivity", TakesValue); ("--vpx_speed", TakesValue);
    ("--vpx_static_threshold", TakesValue); ("--vpx_threads", TakesValue);
    ("--vpx_overshoot", TakesValue); ("--vpx_undershoot", TakesValue);
    ("--vpx_max_buffer", TakesValue); ("--vpx_init_buffer", TakesValue);
    ("--vpx_opt_buffer", TakesValue); ("--vpx_max_kf_bitrate", TakesValue);
    ("--vpx_sharpness", TakesValue);
    ("--vpx_error_resilience", PlainSwitch);
    ("--vp8_token_partitions", TakesValue);
    ("--vp9_aq_mode", TakesValue); ("--vp9_gf_cbr_boost", TakesValue);
    ("--vp9_tile_cols", TakesValue); ("--vp9_disable_fpd", GuardedSwitch) ].

(** The first branch of the table whose name is [arg]. *)
Fixpoint option_kind_of (arg : string) (table : list (string * option_kind))
    : option option_kind :=
  match table with
  | [] => None
  | (name, kind) :: rest =>
      if streq name arg then Some kind else option_kind_of arg rest
  end.

Definition kCodecVp8 : string := "vp8".
Definition kCodecVp9 : string := "vp9".

(** What one pass through the loop body leaves. *)
Inductive step_result :=
  | Next (i : nat) (st : parse_state)
  | Exits
  | Undefined.

(** The tail of the chain: a branch whose name matches and whose guard fails
    falls through to the last [else], as no later branch has the same name. *)
Definition parse_encoder_option (arg : string) (i : nat) (argv : arguments)
    (st : parse_state) : step_result :=
  let has_value := arg_has_value i argv in
  match option_kind_of arg encoder_options with
  | Some PlainSwitch => Next i (on_encoder (add_setting (Switch arg)) st)
  | Some GuardedSwitch =>
      if has_value then Next i (on_encoder (add_setting (Switch arg)) st)
      else Next i st
  | Some TakesValue =>
      if has_value
      then Next (i + 1) (on_encoder (add_setting (Value arg (arg_value i argv))) st)
      else Next i st
  | Some TakesCodec =>
      if has_value then
        let vpx_codec_value := arg_value i argv in
        if streq vpx_codec_value kCodecVp8 || streq vpx_codec_value kCodecVp9
        then Next (i + 1) (on_encoder (add_setting (Value arg vpx_codec_value)) st)
        else Next (i + 1) st
      else Next i st
  | None => Next i st
  end.

(** The body of the [for] loop at index [i]; [Next i' st'] gives the index
    before the loop's own [++i]. *)
Definition parse_argument (i : nat) (argv : arguments) (st : parse_state)
    : step_result :=
  match argv !! i with
  | Some (Some arg) =>
      let has_value := arg_has_value i argv in
      let value := arg_value i argv in
      if streq "-h" arg || streq "-?" arg || streq "--help" arg then Exits
      else if streq "--dash" arg then
        Next i (on_encoder (set_dash_encode true) st)
      else if streq "--dash_dir" arg && has_value then
        let dir := value in
        let last_char := StdString.at_ (String.length dir) dir in
        if negb (Ascii.eqb last_char "/") && negb (Ascii.eqb last_char "\")
        then Next (i + 1) (on_encoder (set_dash_dir (dir +:+ "/")) st)
        else Next (i + 1) (on_encoder (set_dash_dir dir) st)
      else if streq "--dash_name" arg && has_value then
        Next (i + 1) (on_encoder (set_dash_name value) st)
      else if streq "--dash_start_number" arg && has_value then
        Next (i + 1) (on_encoder (set_dash_start_number value) st)
      else if streq "--url" arg && has_value then
        Next (i + 1) (on_uploader (set_target_url value) st)
      else if streq "--header" arg && has_value then
        Next (i + 1) (push_header value st)
      else if streq "--form_post" arg && has_value then
        Next i (on_uploader (set_post_mode HTTP_FORM_POST) st)
      else if streq "--var" arg && has_value then
        Next (i + 1) (push_var value st)
      else if streq "--stream_name" arg && has_value then
        Next (i + 1) (on_uploader (set_stream_name value) st)
      else if streq "--stream_id" arg && has_value then
        Next (i + 1) (on_uploader (set_stream_id value) st)
      else parse_encoder_option arg i argv st
  | _ => Undefined
  end.

(** How the [for] loop ends: [i] reaches [argc], or the body leaves through
    [exit(EXIT_SUCCESS)] after the usage text, or hands a null [argv[i]] to
    [strcmp]. *)
Inductive loop_outcome :=
  | LoopDone (st : parse_state)
  | LoopExits
  | LoopUndefined.

(** [for (int i = i0; i < argc; ++i)]. [fuel] bounds the number of passes;
    [None] is a loop cut short by it, which [argc - i0] passes never are. *)
Fixpoint parse_loop (fuel : nat) (i : nat) (argv : arguments)
    (st : parse_state) : option loop_outcome :=
  if bool_decide (i < length argv)%nat then
    match fuel with
    | O => None
    | S fuel' =>
        match parse_argument i argv st with
        | Next i' st' => parse_loop fuel' (S i') argv st'
        | Exits => Some LoopExits
        | Undefined => Some LoopUndefined
        end
    end
  else Some (LoopDone st).

(** The two calls after the loop; their statuses are dropped. *)
Definition store_user_entries (st : parse_state) : WebmEncoderConfig :=
  let with_headers :=
    on_uploader
      (λ s, set_headers
              (store_string_map_entries (unparsed_headers st) (headers s)).2 s)
      st in
  let with_vars :=
    on_uploader
      (λ s, set_form_variables
              (store_string_map_entries (unparsed_vars st) (form_variables s)).2 s)
      with_headers in
  config with_vars.

(** What [parse_command_line] comes to. *)
Inductive parse_outcome :=
  | Parsed (config : WebmEncoderConfig)
  | ExitedAfterUsage
  | UndefinedBehaviour.

Definition parse_start (config0 : WebmEncoderConfig) : parse_state :=
  on_uploader (set_post_mode HTTP_POST)
    {| config := config0; unparsed_headers := []; unparsed_vars := [] |}.

Definition parse_command_line (argv : arguments) (config0 : WebmEncoderConfig)
    : option parse_outcome :=
  match parse_loop (length argv) 1 argv (parse_start config0) with
  | None => None
  | Some (LoopDone st) => Some (Parsed (store_user_entries st))
  | Some LoopExits => Some ExitedAfterUsage
  | Some LoopUndefined => Some UndefinedBehaviour
  end.

(** A command line as the C runtime passes it: no null below [argc]. *)
Definition command_line (args : list string) : arguments := Some <$> args.

(** A default-constructed configuration with empty strings and maps. *)
Definition empty_settings : HttpUploaderSettings :=
  {| local_file := ""; target_url := ""; headers := ∅; form_variables := ∅;
     post_mode := HTTP_POST; stream_name := ""; stream_id := "" |}.

Definition empty_encoder_config : EncoderConfig :=
  {| dash_encode := false; dash_dir := ""; dash_name := "";
     dash_start_number := ""; other_settings := [] |}.

Definition empty_config : WebmEncoderConfig :=
  {| uploader_settings := empty_settings; enc_config := empty_encoder_config |}.


(** ** The classes behind the drivers

    [WebmEncoder], [HttpUploader] and [WebmChunkBuffer] are defined in other
    files of the project. A driver is verified against their methods as it
    calls them: a method takes the object's state and returns its [int]
    status with the new state. *)

Module WebmEncoder.
(** [Cfg] is the argument of [Init]: [WebmEncoderSettings] for the 2011
    client, [WebmEncoderConfig] with the uploader's address for the 2012
    driver. *)
Class methods (E Cfg : Type) := {
  Init : Cfg → E → Z * E;
  Run : E → Z * E;
  Stop : E → E
}.
End WebmEncoder.

Module HttpUploader.
Class methods (U : Type) := {
  Init : HttpUploaderSettings → U → Z * U;
  Run : U → Z * U;
  UploadComplete : U → bool;
  UploadBuffer : list byte → U → Z * U;
  Stop : U → U
}.
End HttpUploader.

Module WebmChunkBuffer.
(** [ChunkReady] returns [Some length] for [true] with [*ptr_length] set;
    [ReadChunk] also returns the bytes it copied to the caller's buffer. *)
Class methods (B : Type) := {
  Init : B → Z * B;
  BufferData : list byte → B → Z * B;
  ChunkReady : B → option Z;
  ReadChunk : Z → B → Z * list byte * B
}.
End WebmChunkBuffer.

(** A status is tested as [if (status)]. *)
Definition failed (status : Z) : bool := negb (status =? 0)%Z.

(** The components with the [Init]/[Run]/[Stop] life cycle. *)
Inductive component := Encoder | Uploader.

(** ** The 2012 encoder driver *)

Definition kAgentQueryFragment : string := "&agent=p".
Definition kMetadataQueryFragment : string := "&metadata=1".
Definition kWebmItagQueryFragment : string := "&itag=43".

(** The URL [start_uploader] builds in its [ostringstream]. *)
Definition url_with_query (s : HttpUploaderSettings) : string :=
  target_url s +:+ "?ns=" +:+ stream_name s +:+ "&id=" +:+ stream_id s
    +:+ kAgentQueryFragment +:+ kWebmItagQueryFragment.

(** The block under [// validate params] in [main]: [true] when [main]
    returns [EXIT_FAILURE] from it. *)
Definition params_rejected (config : WebmEncoderConfig) : bool :=
  let s := uploader_settings config in
  if negb (StdString.empty (target_url s)) then
    (StdString.empty (stream_id s) || StdString.empty (stream_name s))
    && bool_decide (StdString.find "?" (target_url s) = None)
  else false.

(** What the drivers do to their components, in order; [CallPrompt] is the
    line [Press the any key to quit...] printed before the polling loop. *)
Inductive lifecycle_call :=
  | CallInit (c : component) (status : Z)
  | CallRun (c : component) (status : Z)
  | CallPrompt
  | CallStop (c : component).

Section EncoderDriver.

Context {E U : Type}.
Context `{encoder_class : !WebmEncoder.methods E (EncoderConfig * U)}.
Context `{uploader_class : !HttpUploader.methods U}.

(** The encoder and the uploader run threads of their own; [background]
    is what they do to the two objects during one [Sleep(100)], from a
    description [Bg] of it. *)
Context {Bg : Type}.
Variable background : Bg → E * U → E * U.

(** [int start_uploader(ptr_config, ptr_uploader)]: the status, the
    configuration, the uploader and the calls made. *)
Definition start_uploader (ptr_config : WebmEncoderConfig) (ptr_uploader : U)
    : Z * WebmEncoderConfig * U * list lifecycle_call :=
  let '(status, u1) := HttpUploader.Init (uploader_settings ptr_config) ptr_uploader in
  if failed status then (status, ptr_config, u1, [CallInit Uploader status])
  else
    let config1 :=
      match StdString.find "?" (target_url (uploader_settings ptr_config)) with
      | None =>
          {| uploader_settings :=
               set_target_url (url_with_query (uploader_settings ptr_config))
                 (uploader_settings ptr_config);
             enc_config := enc_config ptr_config |}
      | Some _ => ptr_config
      end in
    let '(status2, u2) := HttpUploader.Run u1 in
    (status2, config1, u2, [CallInit Uploader status; CallRun Uploader status2]).

(** [while (!_kbhit()) { ...; Sleep(100); }]: one element of [ticks] for each
    pass the key was not hit in. The progress line it prints is left out. *)
Fixpoint encoder_polling_loop (ticks : list Bg) (objects : E * U) : E * U :=
  match ticks with
  | [] => objects
  | tick :: rest => encoder_polling_loop rest (background tick objects)
  end.

(** [int encoder_main(ptr_config)], from default-constructed
    [encoder] and [uploader]: the exit code, the configuration, and the calls
    made on the two components. *)
Definition encoder_main (ptr_config : WebmEncoderConfig) (encoder : E)
    (uploader : U) (ticks : list Bg) : Z * WebmEncoderConfig * list lifecycle_call :=
  let '(status, e1) := WebmEncoder.Init (enc_config ptr_config, uploader) encoder in
  if failed status then (EXIT_FAILURE, ptr_config, [CallInit Encoder status])
  else
    let '(status2, config1, u1, calls) := start_uploader ptr_config uploader in
    if failed status2 then
      (EXIT_FAILURE, config1, CallInit Encoder status :: calls)
    else
      let '(status3, e2) := WebmEncoder.Run e1 in
      if failed status3 then
        (EXIT_FAILURE, config1,
         CallInit Encoder status :: calls
           ++ [CallRun Encoder status3; CallStop Uploader])
      else
        let '(e3, u3) := encoder_polling_loop ticks (e2, u1) in
        (EXIT_SUCCESS, config1,
         CallInit Encoder status :: calls
           ++ [CallRun Encoder status3; CallPrompt;
               CallStop Encoder; CallStop Uploader]).

(** [int main(argc, argv)], from the default-constructed
    [config0]; [None] for the process leaving inside [parse_command_line]. *)
Definition main (argv : arguments) (config0 : WebmEncoderConfig) (encoder : E)
    (uploader : U) (ticks : list Bg) : option (Z * list lifecycle_call) :=
  match parse_command_line argv config0 with
  | Some (Parsed config) =>
      if params_rejected config then Some (EXIT_FAILURE, [])
      else
        let '(exit_code, _, calls) := encoder_main config encoder uploader ticks in
        Some (exit_code, calls)
  | _ => None
  end.

End EncoderDriver.

(** ** The 2011 HTTP client *)

Definition kReadBufferSize : Z := 100 * 1024.

Section HttpClient.

Context {E Cfg U B : Type}.
Context `{encoder_class : !WebmEncoder.methods E Cfg}.
Context `{uploader_class : !HttpUploader.methods U}.
Context `{buffer_class : !WebmChunkBuffer.methods B}.

(** The uploader's worker thread: [worker_step] is one step of it on the
    uploader object, from a description [Ev] of the step. *)
Context {Ev : Type}.
Variable worker_step : Ev → U → U.

(** [reader.CreateFile(local_file)]: only its status is used. *)
Variable CreateFile : string → Z.

(** What [client_main] does to its collaborators, in order. *)
Inductive client_call :=
  | Lifecycle (call : lifecycle_call)
  | ChunkBufferInit (status : Z)
  | BufferDataCall (data : list byte) (status : Z)
  | ReadChunkCall (length : Z) (data : list byte) (status : Z)
  | UploadBufferCall (data : list byte) (status : Z)
  | WorkerStep (e : Ev).

Definition lifecycle_calls (calls : list client_call) : list lifecycle_call :=
  omap (λ call, match call with Lifecycle l => Some l | _ => None end) calls.

(** The chunks a run has handed to the uploader, in order: the data of the
    [UploadBuffer] calls that returned success. *)
Definition uploads (calls : list client_call) : list (list byte) :=
  omap (λ call, match call with
                | UploadBufferCall data status =>
                    if failed status then None else Some data
                | _ => None
                end) calls.

(** The data a run has put into the chunk buffer, in order: the data of the
    [BufferData] calls that returned success. *)
Definition buffered_writes (calls : list client_call) : list (list byte) :=
  omap (λ call, match call with
                | BufferDataCall data status =>
                    if failed status then None else Some data
                | _ => None
                end) calls.

(** The chunks a run has read out of the chunk buffer, in order. *)
Definition read_chunks (calls : list client_call) : list (list byte) :=
  omap (λ call, match call with
                | ReadChunkCall _ data status =>
                    if failed status then None else Some data
                | _ => None
                end) calls.

(** What one pass of the polling loop meets: the bytes the encoder has put in
    the file for [reader.Read], whether [new (std::nothrow)] returns memory,
    and what the upload worker does during [Sleep(100)]. *)
Record tick := {
  file_data : list byte;
  alloc_succeeds : bool;
  worker : list Ev
}.

(** The locals of [client_main] the loop works on. *)
Record client := {
  encoder : E;
  uploader : U;
  chunk_buffer : B;
  read_buffer_size : Z;
  calls : list client_call
}.

Definition with_uploader (u : U) (log : list client_call) (c : client) : client :=
  {| encoder := encoder c; uploader := u; chunk_buffer := chunk_buffer c;
     read_buffer_size := read_buffer_size c; calls := calls c ++ log |}.

Definition with_chunk_buffer (b : B) (log : list client_call) (c : client) : client :=
  {| encoder := encoder c; uploader := uploader c; chunk_buffer := b;
     read_buffer_size := read_buffer_size c; calls := calls c ++ log |}.

Definition with_read_buffer_size (n : Z) (c : client) : client :=
  {| encoder := encoder c; uploader := uploader c; chunk_buffer := chunk_buffer c;
     read_buffer_size := n; calls := calls c |}.

(** [Sleep(100)]: the worker's steps of this pass. *)
Definition sleep (t : tick) (c : client) : client :=
  with_uploader (foldl (λ u e, worker_step e u) (uploader c) (worker t))
    (WorkerStep <$> worker t) c.

(** [if (uploader.UploadComplete()) { ... }]: [Some exit_code] for a [break]. *)
Definition upload_next_chunk (t : tick) (c : client) : client * option Z :=
  if HttpUploader.UploadComplete (uploader c) then
    match WebmChunkBuffer.ChunkReady (chunk_buffer c) with
    | Some chunk_length =>
        let grow := (chunk_length >? read_buffer_size c)%Z in
        if grow && negb (alloc_succeeds t) then (c, Some EXIT_FAILURE)
        else
          let c1 := if grow then with_read_buffer_size chunk_length c else c in
          let '(status, data, b1) :=
            WebmChunkBuffer.ReadChunk chunk_length (chunk_buffer c1) in
          let c2 := with_chunk_buffer b1 [ReadChunkCall chunk_length data status] c1 in
          if failed status then (c2, Some EXIT_FAILURE)
          else
            let '(status', u1) := HttpUploader.UploadBuffer data (uploader c2) in
            let c3 := with_uploader u1 [UploadBufferCall data status'] c2 in
            if failed status' then (c3, Some EXIT_FAILURE) else (c3, None)
    | None => (c, None)
    end
  else (c, None).

(** The body of [while (!_kbhit())] up to [Sleep(100)]. [reader.Read] fills
    at most [read_buffer_size] bytes; a [break] on a failed [BufferData]
    leaves [exit_code] at [EXIT_SUCCESS]. *)
Definition polling_pass (t : tick) (c : client) : client * option Z :=
  let data := take (Z.to_nat (read_buffer_size c)) (file_data t) in
  let bytes_read := Z.of_nat (length data) in
  if (bytes_read >? 0)%Z then
    let '(status, b1) := WebmChunkBuffer.BufferData data (chunk_buffer c) in
    let c1 := with_chunk_buffer b1 [BufferDataCall data status] c in
    if failed status then (c1, Some EXIT_SUCCESS)
    else upload_next_chunk t c1
  else upload_next_chunk t c.

(** The loop: one element of [ticks] for each pass the key was not hit in. *)
Fixpoint polling_loop (ticks : list tick) (c : client) : Z * client :=
  match ticks with
  | [] => (EXIT_SUCCESS, c)
  | t :: rest =>
      match polling_pass t c with
      | (c', Some exit_code) => (exit_code, c')
      | (c', None) => polling_loop rest (sleep t c')
      end
  end.

(** [start_encoder] and [start_uploader] of the client: [Init], then [Run]. *)
Definition start_encoder (e : E) (settings : Cfg) : Z * E * list client_call :=
  let '(status, e1) := WebmEncoder.Init settings e in
  if failed status then (status, e1, [Lifecycle (CallInit Encoder status)])
  else
    let '(status2, e2) := WebmEncoder.Run e1 in
    (status2, e2,
     [Lifecycle (CallInit Encoder status); Lifecycle (CallRun Encoder status2)]).

Definition client_start_uploader (u : U) (settings : HttpUploaderSettings)
    : Z * U * list client_call :=
  let '(status, u1) := HttpUploader.Init settings u in
  if failed status then (status, u1, [Lifecycle (CallInit Uploader status)])
  else
    let '(status2, u2) := HttpUploader.Run u1 in
    (status2, u2,
     [Lifecycle (CallInit Uploader status); Lifecycle (CallRun Uploader status2)]).

(** The client once both components run and the read buffer is allocated. *)
Definition client_at_loop (e : E) (u : U) (b : B) (log : list client_call) : client :=
  {| encoder := e; uploader := u; chunk_buffer := b;
     read_buffer_size := kReadBufferSize; calls := log |}.

(** [int client_main(uploader_settings, encoder_settings)] from the
    default-constructed [encoder0], [uploader0] and [chunk_buffer0];
    [read_buf_allocated] is the first [new (std::nothrow)]. The exit code and
    the calls made. *)
Definition client_main (uploader_settings : HttpUploaderSettings)
    (encoder_settings : Cfg) (encoder0 : E) (uploader0 : U) (chunk_buffer0 : B)
    (read_buf_allocated : bool) (ticks : list tick) : Z * list client_call :=
  if failed (CreateFile (local_file uploader_settings)) then (EXIT_FAILURE, [])
  else
    let '(status, e1, log1) := start_encoder encoder0 encoder_settings in
    if failed status then (EXIT_FAILURE, log1)
    else
      let '(status2, u1, log2) := client_start_uploader uploader0 uploader_settings in
      if failed status2 then
        (EXIT_FAILURE, log1 ++ log2 ++ [Lifecycle (CallStop Encoder)])
      else if negb read_buf_allocated then
        (EXIT_FAILURE,
         log1 ++ log2 ++ [Lifecycle (CallStop Uploader); Lifecycle (CallStop Encoder)])
      else
        let '(status3, b1) := WebmChunkBuffer.Init chunk_buffer0 in
        if failed status3 then
          (EXIT_FAILURE,
           log1 ++ log2 ++ [ChunkBufferInit status3;
                            Lifecycle (CallStop Uploader); Lifecycle (CallStop Encoder)])
        else
          let '(exit_code, c) :=
            polling_loop ticks
              (client_at_loop e1 u1 b1
                 (log1 ++ log2 ++ [ChunkBufferInit status3; Lifecycle CallPrompt])) in
          (exit_code,
           calls c ++ [Lifecycle (CallStop Encoder); Lifecycle (CallStop Uploader)]).

End HttpClient.

(** ** [_tmain] of the 2011 client *)

(** The [variables_map] that [boost::program_options] fills from the command
    line, read as [_tmain] reads it: [count("help")], and the values of
    [file], [url], [header] and [var] where [count] is not zero. The two
    composing options collect their occurrences in order. *)
Record variables_map := {
  opt_help : bool;
  opt_file : option string;
  opt_url : option string;
  opt_header : option (list string);
  opt_var : option (list string)
}.

(** [webmlive::WebmEncoderSettings] as [_tmain] fills it. *)
Record WebmEncoderSettings := {
  output_file_name : string;
  keyframe_interval : QArith_base.Q
}.

Definition kDefaultKeyframeInterval : QArith_base.Q := QArith_base.Qmake 2 1.

Definition set_local_file (v : string) (s : HttpUploaderSettings) :=
  {| local_file := v; target_url := target_url s; headers := headers s;
     form_variables := form_variables s; post_mode := post_mode s;
     stream_name := stream_name s; stream_id := stream_id s |}.

Section HttpClientMain.

Context {E U B : Type}.
Context `{encoder_class : !WebmEncoder.methods E WebmEncoderSettings}.
Context `{uploader_class : !HttpUploader.methods U}.
Context `{buffer_class : !WebmChunkBuffer.methods B}.
Context {Ev : Type}.
Variable worker_step : Ev → U → U.
Variable CreateFile : string → Z.

(** [int _tmain(argc, argv)] from the parsed options; [settings0] is the
    default-constructed [uploader_settings]. The exit code and the calls
    made on the collaborators. *)
Definition _tmain (var_map : variables_map) (settings0 : HttpUploaderSettings)
    (encoder0 : E) (uploader0 : U) (chunk_buffer0 : B)
    (read_buf_allocated : bool) (ticks : list (@tick Ev))
    : Z * list (@client_call Ev) :=
  if opt_help var_map then (EXIT_FAILURE, [])
  else
    match opt_file var_map, opt_url var_map with
    | Some file, Some url =>
        let settings1 := set_target_url url (set_local_file file settings0) in
        let '(status_headers, settings2) :=
          match opt_header var_map with
          | Some headers_given =>
              let '(status, m) :=
                client_store_string_map_entries headers_given (headers settings1) in
              (status, set_headers m settings1)
          | None => (ERROR_SUCCESS, settings1)
          end in
        if failed status_headers then (EXIT_FAILURE, [])
        else
          let '(status_vars, settings3) :=
            match opt_var var_map with
            | Some form_vars =>
                let '(status, m) :=
                  client_store_string_map_entries form_vars
                    (form_variables settings2) in
                (status, set_form_variables m settings2)
            | None => (ERROR_SUCCESS, settings2)
            end in
          if failed status_vars then (EXIT_FAILURE, [])
          else
            client_main worker_step CreateFile settings3
              {| output_file_name := local_file settings3;
                 keyframe_interval := kDefaultKeyframeInterval |}
              encoder0 uploader0 chunk_buffer0 read_buf_allocated ticks
    | _, _ => (EXIT_FAILURE, [])
    end.

End HttpClientMain.

(** ** Reading the parser *)

(** The names the chain of [parse_command_line] tests that act without
    asking for a value: the help flags and the plain switches. *)
Definition unguarded_options : list string :=
  ["-h"; "-?"; "--help"; "--dash"; "--adisable"; "--amanual"; "--vdisable";
   "--vmanual"; "--vorbis_disable_vbr"; "--vpx_error_resilience"].

(** The names of the head of the chain that are guarded by [arg_has_value]. *)
Definition guarded_head_options : list string :=
  ["--dash_dir"; "--dash_name"; "--dash_start_number"; "--url"; "--header";
   "--form_post"; "--var"; "--stream_name"; "--stream_id"].

(** Every name the chain tests. *)
Definition option_names : list string :=
  ["-h"; "-?"; "--help"; "--dash"] ++ guarded_head_options
    ++ (fst <$> encoder_options).

(** The attempted uploads of a run: the data of every [UploadBuffer] call. *)
Definition upload_attempts {Ev : Type} (calls : list (@client_call Ev))
    : list (list byte) :=
  omap (λ call, match call with
                | UploadBufferCall data _ => Some data
                | _ => None
                end) calls.

(** ** The chunk-buffering and upload-scheduling core

    [WebmChunkBuffer] and [HttpUploader] are implemented outside the driver
    files; the two modules below follow the specification of the core. *)

(** Modelled from the spec: the error taxonomy of section 7, which stands for
    the status codes of the missing classes. *)
Inductive error :=
  | InvalidArgument
  | BufferFull
  | NotRunning
  | AlreadyRunning
  | TransportInitFailed
  | TransportTransferFailed.

Inductive result (A : Type) :=
  | Ok (a : A)
  | Err (e : error).
Arguments Ok {A} a.
Arguments Err {A} e.

(** Modelled from the spec: the [int] a failure is reported as. The spec only
    names the errors; [InvalidArgument] takes the driver's [kInvalidArg] and
    the others take further negative codes, all different from [kSuccess]. *)
Definition error_status (e : error) : Z :=
  match e with
  | InvalidArgument => kInvalidArg
  | BufferFull => -4
  | NotRunning => -5
  | AlreadyRunning => -6
  | TransportInitFailed => -7
  | TransportTransferFailed => -8
  end.

Definition total_length (chunks : list (list byte)) : Z :=
  foldr (λ chunk n, Z.of_nat (length chunk) + n) 0 chunks.

Module ChunkBuffer.

(** Modelled from the spec: the missing [WebmChunkBuffer] as the ChunkBuffer
    of sections 3 and 4.1, the chunk being assembled and the queue of ready
    chunks, oldest first, under a capacity in bytes. *)
Record t := {
  capacity : Z;
  assembling : list byte;
  ready : list (list byte)
}.

(** Modelled from the spec: the missing byte count behind "total buffered
    size", the bytes of the chunk being assembled and of the ready chunks. *)
Definition buffered (b : t) : Z :=
  Z.of_nat (length (assembling b)) + total_length (ready b).

(** Modelled from the spec: the missing [Init(capacityBytes)], which fails
    with [InvalidArgument] if the capacity is not positive. *)
Definition Init (capacityBytes : Z) : result t :=
  if (capacityBytes <=? 0)%Z then Err InvalidArgument
  else Ok {| capacity := capacityBytes; assembling := []; ready := [] |}.

(** Modelled from the spec: the missing [Write(bytes)] ([BufferData] in the
    client). It appends to the chunk being assembled, and [boundary] says
    that the bytes complete a chunk, which then becomes ready; it fails with
    [BufferFull] if the total buffered size would exceed the capacity. *)
Definition Write (bytes : list byte) (boundary : bool) (b : t) : result t :=
  if (buffered b + Z.of_nat (length bytes) >? capacity b)%Z then Err BufferFull
  else if boundary then
    Ok {| capacity := capacity b; assembling := [];
          ready := ready b ++ [assembling b ++ bytes] |}
  else
    Ok {| capacity := capacity b; assembling := assembling b ++ bytes;
          ready := ready b |}.

(** Modelled from the spec: the missing [IsChunkReady() -> (bool, length)]
    ([ChunkReady] in the client), about the oldest ready chunk. *)
Definition IsChunkReady (b : t) : option Z :=
  match ready b with
  | [] => None
  | chunk :: _ => Some (Z.of_nat (length chunk))
  end.

(** Modelled from the spec: the missing [ReadChunk(destination, length)]. It
    gives the oldest ready chunk and removes it, and fails with
    [InvalidArgument] if [length] is not that chunk's length; with no ready
    chunk no length matches. *)
Definition ReadChunk (length : Z) (b : t) : result (list byte * t) :=
  match ready b with
  | [] => Err InvalidArgument
  | chunk :: rest =>
      if (length =? Z.of_nat (List.length chunk))%Z then
        Ok (chunk, {| capacity := capacity b; assembling := assembling b;
                      ready := rest |})
      else Err InvalidArgument
  end.

(** A call of the producer or of the consumer. *)
Inductive op :=
  | OpWrite (bytes : list byte) (boundary : bool)
  | OpReadChunk (length : Z).

(** What the two sides see of a run of calls: the chunks the producer has
    completed and the chunks the consumer has read, each in order. *)
Record history := {
  completed : list (list byte);
  consumed : list (list byte)
}.

Definition step (o : op) (s : t * history) : t * history :=
  let '(b, h) := s in
  match o with
  | OpWrite bytes boundary =>
      match Write bytes boundary b with
      | Ok b' =>
          (b', {| completed :=
                    if boundary then completed h ++ [assembling b ++ bytes]
                    else completed h;
                  consumed := consumed h |})
      | Err _ => (b, h)
      end
  | OpReadChunk length =>
      match ReadChunk length b with
      | Ok (chunk, b') =>
          (b', {| completed := completed h; consumed := consumed h ++ [chunk] |})
      | Err _ => (b, h)
      end
  end.

Definition run (ops : list op) (s : t * history) : t * history :=
  foldl (λ s o, step o s) s ops.

(** The consumer's reads after the producer is done: it asks for the length
    of the oldest ready chunk and reads that, as the client's loop does. *)
Fixpoint drain (n : nat) (b : t) : list (list byte) * t :=
  match n with
  | O => ([], b)
  | S n' =>
      match IsChunkReady b with
      | None => ([], b)
      | Some length =>
          match ReadChunk length b with
          | Ok (chunk, b') => let '(chunks, b'') := drain n' b' in (chunk :: chunks, b'')
          | Err _ => ([], b)
          end
      end
  end.

End ChunkBuffer.

Module UploadScheduler.

(** Modelled from the spec: the states of the missing [HttpUploader],
    [Idle --Init--> Initialized --Run--> Running --Stop--> Stopped]. *)
Inductive state := Idle | Initialized | Running | Stopped.

(** Modelled from the spec: the missing [HttpUploader] as the UploadScheduler
    of section 4.2: its state, the settings taken at [Init], the chunks
    handed to the worker whose transfer has not ended (the first is the one
    on the wire), and the chunks transferred so far. *)
Record t := {
  phase : state;
  settings : option HttpUploaderSettings;
  pending : list (list byte);
  sent : list (list byte)
}.

Definition created : t :=
  {| phase := Idle; settings := None; pending := []; sent := [] |}.

(** Modelled from the spec: the missing URL normalisation of [Init], the
    query parameters appended when the URL lacks a query string. *)
Definition normalize (s : HttpUploaderSettings) : HttpUploaderSettings :=
  match StdString.find "?" (target_url s) with
  | None => set_target_url (url_with_query s) s
  | Some _ => s
  end.

(** Modelled from the spec: the missing [Init(settings)]. It takes a
    non-empty target URL, fails with [InvalidArgument] if a query string is
    absent and either stream identifier is empty, and keeps the normalised
    settings. The spec gives [Init] from [Idle] only; from another state it
    is refused here. *)
Definition Init (s : HttpUploaderSettings) (u : t) : result t :=
  match phase u with
  | Idle =>
      if StdString.empty (target_url s) then Err InvalidArgument
      else if bool_decide (StdString.find "?" (target_url s) = None)
              && (StdString.empty (stream_id s) || StdString.empty (stream_name s))
      then Err InvalidArgument
      else Ok {| phase := Initialized; settings := Some (normalize s);
                 pending := []; sent := [] |}
  | _ => Err InvalidArgument
  end.

(** Modelled from the spec: the missing [Run()]. It starts the worker, fails
    with [AlreadyRunning] if called twice and with [TransportInitFailed] if
    the HTTP client cannot be constructed ([transport_ok] is that outcome).
    Before [Init] and after [Stop] there is nothing to start, which is
    reported as [NotRunning] here. *)
Definition Run (transport_ok : bool) (u : t) : result t :=
  match phase u with
  | Initialized =>
      if transport_ok then
        Ok {| phase := Running; settings := settings u;
              pending := pending u; sent := sent u |}
      else Err TransportInitFailed
  | Running => Err AlreadyRunning
  | Idle | Stopped => Err NotRunning
  end.

(** Modelled from the spec: the missing [UploadBuffer(bytes, length)]. It
    hands one chunk to the worker without waiting for the network and fails
    with [NotRunning] outside [Running]. *)
Definition UploadBuffer (bytes : list byte) (u : t) : result t :=
  match phase u with
  | Running =>
      Ok {| phase := Running; settings := settings u;
            pending := pending u ++ [bytes]; sent := sent u |}
  | _ => Err NotRunning
  end.

(** Modelled from the spec: the missing [UploadComplete()], true when the
    worker is idle and ready to accept the next buffer. *)
Definition UploadComplete (u : t) : bool :=
  match phase u, pending u with
  | Running, [] => true
  | _, _ => false
  end.

(** Modelled from the spec: the missing worker thread, seen by how a transfer
    ends. A finished transfer has sent its chunk; a failed one is logged and
    skipped, and the worker goes on with the next chunk. *)
Inductive worker_event := TransferFinished | TransferFailed.

Definition worker_step (e : worker_event) (u : t) : t :=
  match phase u, pending u with
  | Running, chunk :: rest =>
      {| phase := Running; settings := settings u; pending := rest;
         sent := match e with
                 | TransferFinished => sent u ++ [chunk]
                 | TransferFailed => sent u
                 end |}
  | _, _ => u
  end.

(** Modelled from the spec: the missing [Stop()]. It cancels the transfer in
    progress, whose chunk is discarded, and ends the worker; it is a no-op
    without a prior [Run] and on a stopped scheduler. *)
Definition Stop (u : t) : t :=
  match phase u with
  | Running =>
      {| phase := Stopped; settings := settings u; pending := []; sent := sent u |}
  | _ => u
  end.

(** A call on the scheduler or a step of its worker. *)
Inductive op :=
  | OpInit (s : HttpUploaderSettings)
  | OpRun (transport_ok : bool)
  | OpUploadBuffer (bytes : list byte)
  | OpUploadComplete
  | OpWorker (e : worker_event)
  | OpStop.

Definition keep (u : t) (r : result t) : t :=
  match r with Ok u' => u' | Err _ => u end.

Definition step (o : op) (u : t) : t :=
  match o with
  | OpInit s => keep u (Init s u)
  | OpRun transport_ok => keep u (Run transport_ok u)
  | OpUploadBuffer bytes => keep u (UploadBuffer bytes u)
  | OpUploadComplete => u
  | OpWorker e => worker_step e u
  | OpStop => Stop u
  end.

Definition run (ops : list op) (u : t) : t := foldl (λ u o, step o u) u ops.

(** The steps that end a transfer: it finishes, or it is abandoned. *)
Definition ends_transfer (o : op) : bool :=
  match o with
  | OpWorker _ | OpStop => true
  | _ => false
  end.

End UploadScheduler.

(** ** The core behind the client's classes *)

Definition status_of {A : Type} (r : result A) : Z :=
  match r with Ok _ => kSuccess | Err e => error_status e end.

(** Modelled from the spec: the missing [HttpUploader] methods, as the
    scheduler's operations with their results turned into statuses. *)
#[export] Instance scheduler_methods (transport_ok : bool)
    : HttpUploader.methods UploadScheduler.t := {
  HttpUploader.Init s u :=
    (status_of (UploadScheduler.Init s u),
     UploadScheduler.keep u (UploadScheduler.Init s u));
  HttpUploader.Run u :=
    (status_of (UploadScheduler.Run transport_ok u),
     UploadScheduler.keep u (UploadScheduler.Run transport_ok u));
  HttpUploader.UploadComplete := UploadScheduler.UploadComplete;
  HttpUploader.UploadBuffer bytes u :=
    (status_of (UploadScheduler.UploadBuffer bytes u),
     UploadScheduler.keep u (UploadScheduler.UploadBuffer bytes u));
  HttpUploader.Stop := UploadScheduler.Stop
}.

(** Modelled from the spec: the missing [WebmChunkBuffer] methods. The
    client's [Init()] has no argument and [BufferData] no flush signal, so
    the capacity and the framing rule that says whether the assembled bytes
    end a chunk are the instance's; [None] is a buffer before [Init]. *)
#[export] Instance chunk_buffer_methods (capacityBytes : Z)
    (framing : list byte → bool) : WebmChunkBuffer.methods (option ChunkBuffer.t) := {
  WebmChunkBuffer.Init b :=
    match ChunkBuffer.Init capacityBytes with
    | Ok b' => (kSuccess, Some b')
    | Err e => (error_status e, b)
    end;
  WebmChunkBuffer.BufferData data b :=
    match b with
    | Some buf =>
        match ChunkBuffer.Write data (framing (ChunkBuffer.assembling buf ++ data)) buf with
        | Ok buf' => (kSuccess, Some buf')
        | Err e => (error_status e, b)
        end
    | None => (error_status InvalidArgument, b)
    end;
  WebmChunkBuffer.ChunkReady b := b ≫= ChunkBuffer.IsChunkReady;
  WebmChunkBuffer.ReadChunk length b :=
    match b with
    | Some buf =>
        match ChunkBuffer.ReadChunk length buf with
        | Ok (chunk, buf') => (kSuccess, chunk, Some buf')
        | Err e => (error_status e, [], b)
        end
    | None => (error_status InvalidArgument, [], b)
    end
}.

(** ** Reading a run *)

(** The components a run has started, in order: a component is started by a
    [Run] that returns success. *)
Definition started (calls : list lifecycle_call) : list component :=
  omap (λ call, match call with
                | CallRun c status => if failed status then None else Some c
                | _ => None
                end) calls.

(** The components a run has called [Stop] on, in order. *)
Definition stopped (calls : list lifecycle_call) : list component :=
  omap (λ call, match call with CallStop c => Some c | _ => None end) calls.

(** The calls of a run after it has printed the prompt of the polling loop;
    [None] when it never came to the loop. *)
Fixpoint after_prompt (calls : list lifecycle_call) : option (list lifecycle_call) :=
  match calls with
  | [] => None
  | CallPrompt :: rest => Some rest
  | _ :: rest => after_prompt rest
  end.

(** An encoder that starts and stops without fault, to run the drivers on. *)
Definition steady_encoder (Cfg : Type) : WebmEncoder.methods unit Cfg :=
  {| WebmEncoder.Init := λ _ e, (kSuccess, e);
     WebmEncoder.Run := λ e, (kSuccess, e);
     WebmEncoder.Stop := λ e, e |}.

(** A URL "has a query string" when it has a question mark in it. *)
Definition has_query_string (url : string) : Prop :=
  ∃ p q, url = p +:+ String "?" q.

(** ** What the producer completes and when transfers start *)

(** The chunks a run of writes completes under a framing rule, from the
    bytes assembled so far: the completed chunks in order and the bytes left
    in assembly. *)
Fixpoint frame (framing : list byte → bool) (assembling : list byte)
    (writes : list (list byte)) : list (list byte) * list byte :=
  match writes with
  | [] => ([], assembling)
  | data :: rest =>
      if framing (assembling ++ data) then
        let '(chunks, remainder) := frame framing [] rest in
        ((assembling ++ data) :: chunks, remainder)
      else frame framing (assembling ++ data) rest
  end.

(** The chunks the producer side of a client run has completed. *)
Definition produced (framing : list byte → bool)
    (calls : list (@client_call UploadScheduler.worker_event)) : list (list byte) :=
  (frame framing [] (buffered_writes calls)).1.

(** Replaying a client run for the transfers: [Some busy] while every chunk
    was handed to the uploader with no transfer under way, [busy] telling
    whether one is under way now; [None] once a chunk was handed over during
    a transfer. A transfer ends when the worker finishes or fails it, or at
    the uploader's [Stop]. *)
Definition replay_transfer (s : option bool)
    (call : @client_call UploadScheduler.worker_event) : option bool :=
  match s with
  | None => None
  | Some busy =>
      match call with
      | UploadBufferCall _ status =>
          if failed status then Some busy
          else if busy : bool then None else Some true
      | WorkerStep _ => Some false
      | Lifecycle (CallStop Uploader) => Some false
      | _ => Some busy
      end
  end.

Definition one_in_flight (calls : list (@client_call UploadScheduler.worker_event))
    : Prop :=
  is_Some (foldl replay_transfer (Some false) calls).

(** The chunks handed to the scheduler by a run of operations. *)
Definition handed (ops : list UploadScheduler.op) : list (list byte) :=
  omap (λ o, match o with
             | UploadScheduler.OpUploadBuffer bytes => Some bytes
             | _ => None
             end) ops.

(** The bytes a chunk buffer holds, oldest first. *)
Definition contents (b : ChunkBuffer.t) : list byte :=
  concat (ChunkBuffer.ready b) ++ ChunkBuffer.assembling b.

Definition no_history : ChunkBuffer.history :=
  {| ChunkBuffer.completed := []; ChunkBuffer.consumed := [] |}.

(** ** Runs of the drivers on the core *)

(** Settings the scheduler's [Init] takes. *)
Definition example_settings : HttpUploaderSettings :=
  set_target_url "http://example.com/up?x=1" empty_settings.

(** The client on the core, with a steady encoder, a file that can be
    created, a chunk buffer of [capacityBytes] bytes and the framing rule
    [framing]. *)
Definition core_client_main (capacityBytes : Z) (framing : list byte → bool)
    (settings : HttpUploaderSettings)
    (ticks : list (@tick UploadScheduler.worker_event))
    : Z * list (@client_call UploadScheduler.worker_event) :=
  client_main (encoder_class := steady_encoder unit)
    (uploader_class := scheduler_methods true)
    (buffer_class := chunk_buffer_methods capacityBytes framing)
    UploadScheduler.worker_step (λ _, kSuccess)
    settings tt tt UploadScheduler.created None true ticks.

(** The encoder driver on the core's scheduler, with a steady encoder and
    threads that leave the two objects alone. *)
Definition core_encoder_main (config : WebmEncoderConfig) (ticks : list unit)
    : Z * WebmEncoderConfig * list lifecycle_call :=
  encoder_main (encoder_class := steady_encoder _)
    (uploader_class := scheduler_methods true)
    (λ (_ : unit) objects, objects) config tt UploadScheduler.created ticks.

(** * Properties *)

(** ** Strings *)

Module StdStringFacts.
Import StdString.

Lemma find_split (c : ascii) (s : string) (n : nat) :
  find c s = Some n →
  s = take n s +:+ String c (drop (n + 1) s) ∧ find c (take n s) = None.
Proof.
  revert n. induction s as [|a s IH]; intros n Hfind; simpl in Hfind.
  - discriminate.
  - destruct (Ascii.eqb a c) eqn:Hac.
    + apply Ascii.eqb_eq in Hac. subst a. injection Hfind as <-. by simpl.
    + destruct (find c s) as [m|] eqn:Hm; simpl in Hfind; [|discriminate].
      injection Hfind as <-. destruct (IH m eq_refl) as [Hs Hnone].
      simpl. rewrite Hac, Hnone. split; [|done].
      change (String a s = String a (take m s +:+ String c (drop (m + 1) s))).
      f_equal. exact Hs.
Qed.

Lemma find_app_char (c : ascii) (p q : string) :
  is_Some (find c (p +:+ String c q)).
Proof.
  induction p as [|a p IH]; simpl.
  - rewrite Ascii.eqb_refl. by eexists.
  - destruct (Ascii.eqb a c); [by eexists|].
    destruct IH as [n ->]. by eexists.
Qed.

(** [find] answers [npos] exactly for the strings without the character. *)
Lemma find_None_iff (c : ascii) (s : string) :
  find c s = None ↔ ∀ p q, s ≠ p +:+ String c q.
Proof.
  split.
  - intros Hnone p q ->. destruct (find_app_char c p q) as [n Hn]. congruence.
  - intros Hno. destruct (find c s) as [n|] eqn:Hfind; [|done].
    destruct (find_split _ _ _ Hfind) as [Hs _]. by destruct (Hno _ _ Hs).
Qed.

Lemma at_length (s : string) : at_ (String.length s) s = Ascii.zero.
Proof. induction s as [|a s IH]; simpl; [done|apply IH]. Qed.

Lemma empty_iff (s : string) : empty s = true ↔ s = "".
Proof. destruct s; simpl; split; congruence. Qed.

End StdStringFacts.

(** ** [store_string_map_entries] *)

Section StoreFacts.

Variables (status_success status_bad_format : Z).

Local Abbreviation store := (store_entries status_success status_bad_format).

(** The assignments of a run of well-formed entries, left to right. *)
Definition insert_entries (entries : list string) (out_map : gmap string string)
    : gmap string string :=
  foldl (λ m entry,
           match entry_binding entry with
           | Some (k, v) => <[k := v]> m
           | None => m
           end) out_map entries.

Lemma insert_entries_cons (entry : string) (entries : list string)
    (out_map : gmap string string) :
  insert_entries (entry :: entries) out_map
  = insert_entries entries
      (match entry_binding entry with
       | Some (k, v) => <[k := v]> out_map
       | None => out_map
       end).
Proof. reflexivity. Qed.

Lemma store_well_formed_prefix (entries rest : list string)
    (out_map : gmap string string) :
  Forall well_formed_entry entries →
  store (entries ++ rest) out_map = store rest (insert_entries entries out_map).
Proof.
  intros Hwf. revert out_map.
  induction Hwf as [|entry entries [sep Hsep] _ IH]; intros out_map; [done|].
  simpl. unfold entry_binding. rewrite Hsep. simpl. apply IH.
Qed.

Lemma store_bad_entry (bad : string) (rest : list string)
    (out_map : gmap string string) :
  StdString.find ":" bad = None →
  store (bad :: rest) out_map = (status_bad_format, out_map).
Proof. intros Hbad. simpl. by rewrite Hbad. Qed.

Lemma insert_entries_union (entries : list string) (out_map : gmap string string) :
  insert_entries entries out_map
  = list_to_map (reverse (omap entry_binding entries)) ∪ out_map.
Proof.
  revert out_map. induction entries as [|entry entries IH]; intros out_map.
  - simpl. by rewrite (left_id_L ∅ (∪)).
  - rewrite insert_entries_cons. simpl.
    destruct (entry_binding entry) as [[k v]|]; simpl; [|apply IH].
    rewrite IH, reverse_cons, list_to_map_app. simpl.
    rewrite insert_empty, <- (assoc_L (∪)).
    by rewrite <- insert_union_singleton_l.
Qed.

Lemma insert_entries_bound (entries : list string) (out_map : gmap string string)
    (entry k v : string) :
  entry ∈ entries → entry_binding entry = Some (k, v) →
  is_Some (insert_entries entries out_map !! k).
Proof.
  revert out_map. induction entries as [|e entries IH]; intros out_map Hin Hb.
  - by apply elem_of_nil in Hin.
  - rewrite insert_entries_cons.
    destruct (decide (entry ∈ entries)) as [Hlater|Hnot]; [by apply IH|].
    apply elem_of_cons in Hin as [->|?]; [|done].
    rewrite Hb. rewrite insert_entries_union.
    apply lookup_union_is_Some. right. rewrite lookup_insert_eq. by eexists.
Qed.

Lemma insert_entries_other (entries : list string) (out_map : gmap string string)
    (k : string) :
  (∀ entry v, entry ∈ entries → entry_binding entry ≠ Some (k, v)) →
  insert_entries entries out_map !! k = out_map !! k.
Proof.
  revert out_map. induction entries as [|e entries IH]; intros out_map Hk; [done|].
  rewrite insert_entries_cons.
  rewrite IH; [|intros entry v Hin; apply Hk; by right].
  destruct (entry_binding e) as [[k' v']|] eqn:Hb; [|done].
  apply lookup_insert_ne. intros ->. eapply Hk; [left|done].
Qed.

End StoreFacts.

(** ** [parse_command_line] *)

Section ParseFacts.

Lemma streq_true (a b : string) : streq a b = true → b = a.
Proof. unfold streq. intros H. by apply String.eqb_eq in H. Qed.

Lemma guarded_true (name arg : string) (has_value : bool) :
  streq name arg && has_value = true → arg = name ∧ has_value = true.
Proof. intros [H1 H2]%andb_prop. split; [by apply streq_true|done]. Qed.

Definition post_mode_of (st : parse_state) : HttpPostMode :=
  post_mode (uploader_settings (config st)).

Definition dash_dir_of (st : parse_state) : string :=
  dash_dir (enc_config (config st)).

(** One pass of the loop: where it leaves [i], and what it does to
    [post_mode] and to [dash_dir]. *)
Ltac guarded_branch H :=
  apply guarded_true in H as [-> ?]; intros [= <- <-]; simpl; auto.

Lemma parse_argument_Next (i i' : nat) (argv : arguments) (st st' : parse_state) :
  parse_argument i argv st = Next i' st' →
  ∃ arg, argv !! i = Some (Some arg)
    ∧ (i' = i ∨ (i' = (i + 1)%nat ∧ arg_has_value i argv = true))
    ∧ post_mode_of st'
      = (if streq "--form_post" arg && arg_has_value i argv
         then HTTP_FORM_POST else post_mode_of st)
    ∧ dash_dir_of st'
      = (if streq "--dash_dir" arg && arg_has_value i argv
         then arg_value i argv +:+ "/" else dash_dir_of st).
Proof.
  unfold parse_argument, parse_encoder_option.
  destruct (argv !! i) as [[arg|]|]; try discriminate.
  intros H. exists arg. split; [done|].
  set (hv := arg_has_value i argv) in *. clearbody hv.
  revert H.
  destruct (streq "-h" arg || streq "-?" arg || streq "--help" arg); [discriminate|].
  destruct (streq "--dash" arg) eqn:Hdash.
  { apply streq_true in Hdash. subst arg. intros [= <- <-]. simpl. auto. }
  destruct (streq "--dash_dir" arg && hv) eqn:Hdir.
  { apply guarded_true in Hdir as [-> Hhv].
    rewrite StdStringFacts.at_length. simpl. intros [= <- <-]. simpl. auto. }
  destruct (streq "--dash_name" arg && hv) eqn:H1; [guarded_branch H1|].
  destruct (streq "--dash_start_number" arg && hv) eqn:H2; [guarded_branch H2|].
  destruct (streq "--url" arg && hv) eqn:H3; [guarded_branch H3|].
  destruct (streq "--header" arg && hv) eqn:H4; [guarded_branch H4|].
  destruct (streq "--form_post" arg && hv) eqn:H5; [guarded_branch H5|].
  destruct (streq "--var" arg && hv) eqn:H6; [guarded_branch H6|].
  destruct (streq "--stream_name" arg && hv) eqn:H7; [guarded_branch H7|].
  destruct (streq "--stream_id" arg && hv) eqn:H8; [guarded_branch H8|].
  destruct (option_kind_of arg encoder_options) as [[]|];
    repeat case_match; intros [= <- <-]; simpl; auto.
Qed.

Lemma parse_argument_index (i i' : nat) (argv : arguments) (st st' : parse_state) :
  parse_argument i argv st = Next i' st' → (i ≤ i' ≤ i + 1)%nat.
Proof. intros (? & _ & [->|[-> _]] & _)%parse_argument_Next; lia. Qed.

(** The loop from [i] with enough fuel comes to an end. *)
Lemma parse_loop_total (fuel i : nat) (argv : arguments) (st : parse_state) :
  (length argv - i ≤ fuel)%nat → is_Some (parse_loop fuel i argv st).
Proof.
  revert i st. induction fuel as [|fuel IH]; intros i st Hfuel; simpl.
  - case_bool_decide; [lia|by eexists].
  - case_bool_decide; [|by eexists].
    destruct (parse_argument i argv st) as [i' st'| |] eqn:Hstep; try by eexists.
    apply parse_argument_index in Hstep. apply IH. lia.
Qed.

(** [post_mode] at the end of the loop is [HTTP_FORM_POST] only if it was
    so before or some [--form_post] from [i] on is followed by a value. *)
Lemma parse_loop_form_post (fuel i : nat) (argv : arguments) (st st' : parse_state) :
  parse_loop fuel i argv st = Some (LoopDone st') →
  post_mode_of st' = HTTP_FORM_POST →
  post_mode_of st = HTTP_FORM_POST
  ∨ ∃ j, (i ≤ j)%nat ∧ argv !! j = Some (Some "--form_post")
         ∧ arg_has_value j argv = true.
Proof.
  revert i st. induction fuel as [|fuel IH]; intros i st; simpl.
  - case_bool_decide; [discriminate|]. intros [= <-]. auto.
  - case_bool_decide; [|intros [= <-]; auto].
    destruct (parse_argument i argv st) as [i' st1| |] eqn:Hstep; try discriminate.
    intros Hloop Hmode.
    destruct (parse_argument_Next _ _ _ _ _ Hstep) as (arg & Harg & Hi' & Hpost & _).
    destruct (IH _ _ Hloop Hmode) as [Hst1|(j & Hj & Hat & Hval)].
    + rewrite Hpost in Hst1.
      destruct (streq "--form_post" arg && arg_has_value i argv) eqn:Hform; [|auto].
      apply guarded_true in Hform as [-> Hhv]. right. exists i. auto.
    + right. exists j. split; [|done]. destruct Hi' as [->|[-> _]]; lia.
Qed.

Lemma store_user_entries_post_mode (st : parse_state) :
  post_mode (uploader_settings (store_user_entries st)) = post_mode_of st.
Proof. reflexivity. Qed.

Lemma store_user_entries_dash_dir (st : parse_state) :
  dash_dir (enc_config (store_user_entries st)) = dash_dir_of st.
Proof. reflexivity. Qed.

Lemma arg_has_value_Some (i : nat) (argv : arguments) :
  arg_has_value i argv = true ↔ ∃ v, argv !! (i + 1)%nat = Some (Some v).
Proof.
  unfold arg_has_value. destruct (argv !! (i + 1)%nat) as [[v|]|]; split;
    try discriminate; eauto; intros [? [=]].
Qed.

(** [parse_command_line] always comes to one of its three ends. *)
Lemma parse_command_line_total (argv : arguments) (config0 : WebmEncoderConfig) :
  is_Some (parse_command_line argv config0).
Proof.
  unfold parse_command_line.
  destruct (parse_loop_total (length argv) 1 argv (parse_start config0)) as [[]->];
    [lia|by eexists..].
Qed.


Lemma parse_loop_dash_dir_frame (fuel i : nat) (argv : arguments)
    (st st' : parse_state) :
  parse_loop fuel i argv st = Some (LoopDone st') →
  (∀ j, (i ≤ j)%nat → argv !! j ≠ Some (Some "--dash_dir")) →
  dash_dir_of st' = dash_dir_of st.
Proof.
  revert i st. induction fuel as [|fuel IH]; intros i st; simpl.
  - case_bool_decide; [discriminate|]. by intros [= <-].
  - case_bool_decide; [|by intros [= <-]].
    destruct (parse_argument i argv st) as [i' st1| |] eqn:Hstep; try discriminate.
    intros Hloop Hnone.
    destruct (parse_argument_Next _ _ _ _ _ Hstep) as (arg & Harg & Hi' & _ & Hdir).
    rewrite (IH _ _ Hloop); [|intros j Hj; apply Hnone; destruct Hi' as [->|[-> _]]; lia].
    rewrite Hdir.
    destruct (streq "--dash_dir" arg && arg_has_value i argv) eqn:Htest; [|done].
    apply guarded_true in Htest as [-> _]. by destruct (Hnone i).
Qed.

(** The branch of [--dash_dir] with a value. *)
Lemma parse_argument_dash_dir (i : nat) (argv : arguments) (dir : string)
    (st : parse_state) :
  argv !! i = Some (Some "--dash_dir") →
  argv !! (i + 1)%nat = Some (Some dir) →
  parse_argument i argv st
  = Next (i + 1) (on_encoder (set_dash_dir (dir +:+ "/")) st).
Proof.
  intros Hi Hv. unfold parse_argument, arg_has_value, arg_value.
  rewrite Hi, Hv. simpl. by rewrite StdStringFacts.at_length.
Qed.

(** The branch of [--form_post]: with a value it sets the mode and leaves
    [i] where it is; without one the argument reaches the last [else]. *)
Lemma parse_argument_form_post (i : nat) (argv : arguments) (st : parse_state) :
  argv !! i = Some (Some "--form_post") →
  parse_argument i argv st
  = Next i (if arg_has_value i argv
            then on_uploader (set_post_mode HTTP_FORM_POST) st else st).
Proof.
  intros Hi. unfold parse_argument, parse_encoder_option. rewrite Hi.
  destruct (arg_has_value i argv); reflexivity.
Qed.

End ParseFacts.

(** C9. [parse_command_line] leaves [post_mode] at [HTTP_FORM_POST] only when
    some [--form_post] of the command line is followed by a further non-null
    argument; a [--form_post] with nothing after it is passed over, so a
    command line whose only [--form_post] is its last argument keeps the
    default [HTTP_POST]. *)
Theorem parse_command_line_form_post_needs_value
    (argv : arguments) (config0 parsed : WebmEncoderConfig) :
  parse_command_line argv config0 = Some (Parsed parsed) →
  (post_mode (uploader_settings parsed) = HTTP_FORM_POST →
   ∃ i v, (1 ≤ i)%nat ∧ argv !! i = Some (Some "--form_post")
          ∧ argv !! (i + 1)%nat = Some (Some v))
  ∧ ((∀ i, argv !! i = Some (Some "--form_post") → (i + 1)%nat = length argv) →
     post_mode (uploader_settings parsed) = HTTP_POST)
  ∧ (∀ i st, argv !! i = Some (Some "--form_post") →
       (i + 1)%nat = length argv → parse_argument i argv st = Next i st).
Proof.
  unfold parse_command_line. intros Hparse.
  destruct (parse_loop (length argv) 1 argv (parse_start config0))
    as [[st'| |]|] eqn:Hloop; try discriminate.
  injection Hparse as <-. rewrite store_user_entries_post_mode.
  assert (Honly : post_mode_of st' = HTTP_FORM_POST →
            ∃ i v, (1 ≤ i)%nat ∧ argv !! i = Some (Some "--form_post")
                   ∧ argv !! (i + 1)%nat = Some (Some v)).
  { intros Hmode.
    destruct (parse_loop_form_post _ _ _ _ _ Hloop Hmode) as [Hstart|(j & Hj & Hat & Hval)].
    - discriminate Hstart.
    - apply arg_has_value_Some in Hval as [v Hv]. eauto. }
  split; [exact Honly|]. split.
  - intros Hlast. destruct (post_mode_of st') eqn:Hmode; [done|].
    destruct (Honly eq_refl) as (i & v & _ & Hat & Hv).
    apply Hlast in Hat. apply lookup_lt_Some in Hv. lia.
  - intros i st Hat Hlast. rewrite parse_argument_form_post by done.
    destruct (arg_has_value i argv) eqn:Hval; [|done].
    apply arg_has_value_Some in Hval as [v Hv]. apply lookup_lt_Some in Hv. lia.
Qed.

(** A command line that ends in [--form_post]: the mode stays [HTTP_POST]. *)
Lemma parse_command_line_form_post_needs_value_witness :
  parse_command_line (command_line ["encoder"; "--dash"; "--form_post"]) empty_config
  = Some (Parsed
            {| uploader_settings := empty_settings;
               enc_config := set_dash_encode true empty_encoder_config |})
  ∧ post_mode empty_settings = HTTP_POST.
Proof.
  assert (Hrun : parse_command_line
                   (command_line ["encoder"; "--dash"; "--form_post"]) empty_config
                 = Some (Parsed
                           {| uploader_settings := empty_settings;
                              enc_config := set_dash_encode true empty_encoder_config |}))
    by reflexivity.
  split; [exact Hrun|].
  refine (proj1 (proj2 (parse_command_line_form_post_needs_value _ _ _ Hrun)) _).
  intros [|[|[|[|i]]]]; simpl; intros [=]. reflexivity.
Defined.

(** C10. A [--dash_dir] with a value always gets a [/] appended: the test of
    the last character reads [dash_dir[dash_dir.length()]], the terminating
    NUL, which is neither [/] nor a backslash, whatever the directory ends
    in. The loop goes on two arguments further, and with no later
    [--dash_dir] the directory it ends with is the value with the [/]. *)
Theorem parse_command_line_dash_dir_appends_slash
    (argv : arguments) (i : nat) (dir : string) :
  argv !! i = Some (Some "--dash_dir") →
  argv !! (i + 1)%nat = Some (Some dir) →
  StdString.at_ (String.length dir) dir = Ascii.zero
  ∧ (∀ st, parse_argument i argv st
           = Next (i + 1) (on_encoder (set_dash_dir (dir +:+ "/")) st))
  ∧ (∀ fuel st st',
       parse_loop fuel i argv st = Some (LoopDone st') →
       (∀ j, (i + 2 ≤ j)%nat → argv !! j ≠ Some (Some "--dash_dir")) →
       dash_dir (enc_config (store_user_entries st')) = dir +:+ "/").
Proof.
  intros Hi Hv. split; [apply StdStringFacts.at_length|].
  split; [intros st; by apply parse_argument_dash_dir|].
  intros fuel st st' Hloop Hlater.
  rewrite store_user_entries_dash_dir.
  destruct fuel as [|fuel]; simpl in Hloop.
  - apply lookup_lt_Some in Hi. case_bool_decide; [discriminate|lia].
  - apply lookup_lt_Some in Hi as Hlt. case_bool_decide; [|lia].
    rewrite (parse_argument_dash_dir _ _ dir) in Hloop by done.
    rewrite (parse_loop_dash_dir_frame _ _ _ _ _ Hloop); [done|].
    intros j Hj. apply Hlater. lia.
Qed.

(** A directory that already ends in [/] comes out with two. *)
Lemma parse_command_line_dash_dir_appends_slash_witness :
  parse_command_line (command_line ["encoder"; "--dash_dir"; "out/"]) empty_config
  = Some (Parsed
            {| uploader_settings := empty_settings;
               enc_config := set_dash_dir "out//" empty_encoder_config |})
  ∧ parse_argument 1 (command_line ["encoder"; "--dash_dir"; "out/"])
      (parse_start empty_config)
    = Next 2 (on_encoder (set_dash_dir "out//") (parse_start empty_config)).
Proof.
  split; [reflexivity|].
  exact (proj1 (proj2 (parse_command_line_dash_dir_appends_slash
                         (command_line ["encoder"; "--dash_dir"; "out/"]) 1 "out/"
                         eq_refl eq_refl))
           (parse_start empty_config)).
Defined.

(** C8. [store_string_map_entries] goes through the entries from the left and
    returns the bad-format status at the first entry without a colon. The map
    is then the map it was given with every entry before that one inserted,
    left to right, a later entry overwriting an earlier one of the same name:
    each of those names is bound, a name bound by no earlier entry is as it
    was, and nothing of the entries after the bad one is looked at. So the
    failure does not leave the map as it was when an earlier entry binds a
    new name. Both drivers' copies of the function behave so. *)
Theorem store_string_map_entries_not_atomic
    (preceding following : list string) (bad : string)
    (out_map : gmap string string) :
  Forall well_formed_entry preceding →
  StdString.find ":" bad = None →
  let final := insert_entries preceding out_map in
  store_string_map_entries (preceding ++ bad :: following) out_map
  = (kBadFormat, final)
  ∧ client_store_string_map_entries (preceding ++ bad :: following) out_map
    = (ERROR_BAD_FORMAT, final)
  ∧ store_string_map_entries preceding out_map = (kSuccess, final)
  ∧ final = list_to_map (reverse (omap entry_binding preceding)) ∪ out_map
  ∧ (∀ entry k v, entry ∈ preceding → entry_binding entry = Some (k, v) →
       is_Some (final !! k))
  ∧ (∀ k, (∀ entry v, entry ∈ preceding → entry_binding entry ≠ Some (k, v)) →
       final !! k = out_map !! k)
  ∧ (∀ entry k v, entry ∈ preceding → entry_binding entry = Some (k, v) →
       out_map !! k = None → final ≠ out_map).
Proof.
  intros Hwf Hbad final.
  unfold store_string_map_entries, client_store_string_map_entries.
  rewrite !store_well_formed_prefix by done.
  rewrite !store_bad_entry by done.
  repeat split.
  - rewrite <- (app_nil_r preceding) at 1.
    by rewrite store_well_formed_prefix.
  - apply insert_entries_union.
  - intros entry k v. apply insert_entries_bound.
  - apply insert_entries_other.
  - intros entry k v Hin Hbinding Hfresh Hsame.
    destruct (insert_entries_bound preceding out_map entry k v Hin Hbinding)
      as [v' Hv'].
    fold final in Hv'. rewrite Hsame in Hv'. congruence.
Qed.

(** Two headers, a bad entry, a third header: the first two are stored. *)
Lemma store_string_map_entries_not_atomic_witness :
  store_string_map_entries ["Host:a"; "X-Key:b:c"; "broken"; "Late:d"] ∅
  = (kBadFormat, insert_entries ["Host:a"; "X-Key:b:c"] ∅)
  ∧ insert_entries ["Host:a"; "X-Key:b:c"] (∅ : gmap string string) !! "X-Key"
    = Some "b:c"
  ∧ insert_entries ["Host:a"; "X-Key:b:c"] (∅ : gmap string string) !! "Late" = None.
Proof.
  split; [|split; reflexivity].
  refine (proj1 (store_string_map_entries_not_atomic
                   ["Host:a"; "X-Key:b:c"] ["Late:d"] "broken" ∅ _ eq_refl)).
  repeat constructor; by eexists.
Defined.

(** ** The encoder driver *)

Lemma has_query_string_find (url : string) :
  has_query_string url ↔ StdString.find "?" url ≠ None.
Proof.
  unfold has_query_string. split.
  - intros (p & q & ->). destruct (StdStringFacts.find_app_char "?" p q) as [n ->].
    discriminate.
  - intros Hfind. destruct (StdString.find "?" url) as [n|] eqn:Hn; [|done].
    destruct (StdStringFacts.find_split _ _ _ Hn) as [Hurl _]. eauto.
Qed.

Section EncoderDriverFacts.

Context {E U : Type}.
Context `{encoder_class : !WebmEncoder.methods E (EncoderConfig * U)}.
Context `{uploader_class : !HttpUploader.methods U}.
Context {Bg : Type}.
Variable background : Bg → E * U → E * U.

(** C3. With a non-empty target URL, [main] gives up at its parameter check,
    the driver's invalid-argument failure, exactly when the URL has no query
    string and [stream_id] or [stream_name] is empty; it then returns
    [EXIT_FAILURE] before any component is touched. A URL with a query string
    passes the check whatever the two identifiers are, and [main] goes on to
    [encoder_main]. *)
Theorem main_rejects_missing_stream_identifiers (config : WebmEncoderConfig) :
  target_url (uploader_settings config) ≠ "" →
  (params_rejected config = true
   ↔ ¬ has_query_string (target_url (uploader_settings config))
     ∧ (stream_id (uploader_settings config) = ""
        ∨ stream_name (uploader_settings config) = ""))
  ∧ (has_query_string (target_url (uploader_settings config)) →
     params_rejected config = false)
  ∧ (∀ argv config0 encoder uploader ticks,
       parse_command_line argv config0 = Some (Parsed config) →
       main background argv config0 encoder uploader ticks
       = if params_rejected config then Some (EXIT_FAILURE, [])
         else Some ((encoder_main background config encoder uploader ticks).1.1,
                    (encoder_main background config encoder uploader ticks).2)).
Proof.
  intros Hurl.
  assert (Hcheck : params_rejected config = true
            ↔ ¬ has_query_string (target_url (uploader_settings config))
              ∧ (stream_id (uploader_settings config) = ""
                 ∨ stream_name (uploader_settings config) = "")).
  { unfold params_rejected. rewrite has_query_string_find.
    destruct (StdString.empty (target_url (uploader_settings config))) eqn:Hempty.
    { apply StdStringFacts.empty_iff in Hempty. done. }
    simpl. rewrite andb_true_iff, orb_true_iff, bool_decide_eq_true.
    rewrite !StdStringFacts.empty_iff. split.
    - intros [Hids Hnone]. split; [|done]. intros Hsome. by apply Hsome.
    - intros [Hnone Hids]. split; [done|].
      destruct (StdString.find "?" (target_url (uploader_settings config)));
        [|done]. by destruct Hnone. }
  split; [exact Hcheck|]. split.
  - intros Hquery. apply not_true_is_false. intros Hrej.
    apply Hcheck in Hrej as [Hno _]. by destruct Hno.
  - intros argv config0 encoder uploader ticks Hparse. unfold main.
    rewrite Hparse. destruct (params_rejected config); [done|].
    by destruct (encoder_main background config encoder uploader ticks) as [[? ?] ?].
Qed.

(** C4. When the uploader's [Init] succeeds on settings whose target URL has
    no query string, [start_uploader] leaves the URL followed by
    [?ns=<stream_name>&id=<stream_id>], the agent marker and the item-tag
    marker, in that order; a URL that has a query string is left as it is,
    and so is the rest of the configuration. *)
Theorem start_uploader_appends_query (ptr_config : WebmEncoderConfig) (ptr_uploader : U) :
  failed (HttpUploader.Init (uploader_settings ptr_config) ptr_uploader).1 = false →
  let s := uploader_settings ptr_config in
  (¬ has_query_string (target_url s) →
   (start_uploader ptr_config ptr_uploader).1.1.2
   = {| uploader_settings :=
          set_target_url
            (target_url s +:+ "?ns=" +:+ stream_name s +:+ "&id=" +:+ stream_id s
               +:+ "&agent=p" +:+ "&itag=43") s;
        enc_config := enc_config ptr_config |})
  ∧ (has_query_string (target_url s) →
     (start_uploader ptr_config ptr_uploader).1.1.2 = ptr_config).
Proof.
  intros Hinit s. unfold start_uploader. subst s.
  destruct (HttpUploader.Init (uploader_settings ptr_config) ptr_uploader)
    as [status u1].
  simpl in Hinit. rewrite Hinit.
  set (s := uploader_settings ptr_config). split.
  - intros Hno. rewrite has_query_string_find in Hno.
    destruct (StdString.find "?" (target_url s)); [by destruct Hno|].
    by destruct (HttpUploader.Run u1).
  - intros Hquery. apply has_query_string_find in Hquery.
    destruct (StdString.find "?" (target_url s)); [|done].
    by destruct (HttpUploader.Run u1).
Qed.

End EncoderDriverFacts.

(** A configuration with the given URL and stream identifiers. *)
Definition config_for (url id name : string) : WebmEncoderConfig :=
  {| uploader_settings :=
       set_stream_name name (set_stream_id id (set_target_url url empty_settings));
     enc_config := empty_encoder_config |}.

(** The spec's scenario: [http://example.com/up] with empty identifiers is
    refused, and the same with [?x=1] passes. *)
Lemma main_rejects_missing_stream_identifiers_witness :
  params_rejected (config_for "http://example.com/up" "" "") = true
  ∧ params_rejected (config_for "http://example.com/up?x=1" "" "") = false
  ∧ main (encoder_class := steady_encoder _) (uploader_class := scheduler_methods true)
      (λ (_ : unit) objects, objects)
      (command_line ["encoder"; "--url"; "http://example.com/up"])
      empty_config tt UploadScheduler.created []
    = Some (EXIT_FAILURE, []).
Proof.
  split; [|split].
  - apply (proj1 (main_rejects_missing_stream_identifiers
                    (encoder_class := steady_encoder _) (uploader_class := scheduler_methods true)
                    (λ (_ : unit) objects, objects)
                    (config_for "http://example.com/up" "" "")
                    ltac:(discriminate))).
    split; [|by left]. rewrite has_query_string_find. intros Hfind. by apply Hfind.
  - apply (proj1 (proj2 (main_rejects_missing_stream_identifiers
                    (encoder_class := steady_encoder _) (uploader_class := scheduler_methods true)
                    (λ (_ : unit) objects, objects)
                    (config_for "http://example.com/up?x=1" "" "")
                    ltac:(discriminate)))).
    by exists "http://example.com/up", "x=1".
  - reflexivity.
Defined.

(** The uploader of the core takes these settings, and the URL comes out
    with the four parameters. *)
Lemma start_uploader_appends_query_witness :
  target_url (uploader_settings
    (start_uploader (uploader_class := scheduler_methods true)
       (config_for "http://example.com/up" "42" "live")
       UploadScheduler.created).1.1.2)
  = "http://example.com/up?ns=live&id=42&agent=p&itag=43".
Proof.
  rewrite (proj1 (start_uploader_appends_query (uploader_class := scheduler_methods true)
                    (config_for "http://example.com/up" "42" "live")
                    UploadScheduler.created eq_refl)).
  - reflexivity.
  - rewrite has_query_string_find. intros Hfind. by apply Hfind.
Defined.

(** ** The polling loop of the client *)

Section HttpClientFacts.

Context {E Cfg U B : Type}.
Context `{encoder_class : !WebmEncoder.methods E Cfg}.
Context `{uploader_class : !HttpUploader.methods U}.
Context `{buffer_class : !WebmChunkBuffer.methods B}.
Context {Ev : Type}.
Variable worker_step : Ev → U → U.
Variable CreateFile : string → Z.

Local Abbreviation client := (@client E U B Ev).
Local Abbreviation call := (@client_call Ev).

(** What holds before the loop and is kept by each pass and each sleep holds
    when the loop is left. *)
Lemma polling_loop_invariant (I : client → Prop) :
  (∀ t c, I c → I (polling_pass t c).1) →
  (∀ t c, I c → I (sleep worker_step t c)) →
  ∀ ticks c, I c → I (polling_loop worker_step ticks c).2.
Proof.
  intros Hpass Hsleep ticks.
  induction ticks as [|t ticks IH]; intros c Hc; simpl; [done|].
  specialize (Hpass t c Hc).
  destruct (polling_pass t c) as [c' [exit_code|]]; simpl in *; [done|].
  apply IH. by apply Hsleep.
Qed.

(** The calls a pass and a sleep make are calls on the chunk buffer, on
    [UploadBuffer], and steps of the worker. *)
Definition data_call (c : call) : Prop :=
  match c with
  | Lifecycle _ | ChunkBufferInit _ => False
  | _ => True
  end.

Definition extends_by_data_calls (c c' : client) : Prop :=
  ∃ log, calls c' = calls c ++ log ∧ Forall data_call log.

Lemma extends_refl (c : client) : extends_by_data_calls c c.
Proof. exists []. by rewrite app_nil_r. Qed.

Lemma extends_trans (c1 c2 c3 : client) :
  extends_by_data_calls c1 c2 → extends_by_data_calls c2 c3 →
  extends_by_data_calls c1 c3.
Proof.
  intros (l1 & H1 & F1) (l2 & H2 & F2). exists (l1 ++ l2).
  rewrite H2, H1, app_assoc. split; [done|]. by apply Forall_app.
Qed.

Lemma upload_next_chunk_extends (t : tick) (c : client) :
  extends_by_data_calls c (upload_next_chunk t c).1.
Proof.
  unfold upload_next_chunk.
  destruct (HttpUploader.UploadComplete (uploader c)); [|apply extends_refl].
  destruct (WebmChunkBuffer.ChunkReady (chunk_buffer c)) as [len|];
    [|apply extends_refl].
  destruct ((len >? read_buffer_size c)%Z && negb (alloc_succeeds t));
    [apply extends_refl|].
  set (c1 := if (len >? read_buffer_size c)%Z then _ else c).
  assert (Hc1 : calls c1 = calls c) by (subst c1; by case_match).
  destruct (WebmChunkBuffer.ReadChunk len (chunk_buffer c1)) as [[status data] b1].
  destruct (failed status).
  - exists [ReadChunkCall len data status]. simpl. rewrite Hc1.
    split; [done|]. by repeat constructor.
  - destruct (HttpUploader.UploadBuffer data _) as [status' u1].
    exists [ReadChunkCall len data status; UploadBufferCall data status'].
    split; [|by repeat constructor].
    destruct (failed status'); simpl; by rewrite Hc1, <- app_assoc.
Qed.

Lemma polling_pass_extends (t : tick) (c : client) :
  extends_by_data_calls c (polling_pass t c).1.
Proof.
  unfold polling_pass. case_match; [|apply upload_next_chunk_extends].
  destruct (WebmChunkBuffer.BufferData _ _) as [status b1].
  assert (extends_by_data_calls c
            (with_chunk_buffer b1
               [BufferDataCall
                  (take (Z.to_nat (read_buffer_size c)) (file_data t)) status] c)).
  { eexists. split; [done|]. by repeat constructor. }
  destruct (failed status); [done|].
  eapply extends_trans; [done|apply upload_next_chunk_extends].
Qed.

Lemma sleep_extends (t : tick) (c : client) :
  extends_by_data_calls c (sleep worker_step t c).
Proof.
  eexists. split; [done|]. apply Forall_fmap, Forall_true. done.
Qed.

Lemma polling_loop_extends (ticks : list tick) (c : client) :
  extends_by_data_calls c (polling_loop worker_step ticks c).2.
Proof.
  apply (polling_loop_invariant (extends_by_data_calls c)).
  - intros t c' Hc'. eapply extends_trans; [done|apply polling_pass_extends].
  - intros t c' Hc'. eapply extends_trans; [done|apply sleep_extends].
  - apply extends_refl.
Qed.

Lemma lifecycle_calls_app (l1 l2 : list call) :
  lifecycle_calls (l1 ++ l2) = lifecycle_calls l1 ++ lifecycle_calls l2.
Proof. apply omap_app. Qed.

Lemma lifecycle_calls_data (log : list call) :
  Forall data_call log → lifecycle_calls log = [].
Proof.
  induction 1 as [|c log Hc _ IH]; [done|].
  change (c :: log) with ([c] ++ log). rewrite lifecycle_calls_app, IH.
  by destruct c.
Qed.

Lemma polling_loop_lifecycle (ticks : list tick) (c : client) :
  lifecycle_calls (calls (polling_loop worker_step ticks c).2)
  = lifecycle_calls (calls c).
Proof.
  destruct (polling_loop_extends ticks c) as (log & -> & Hlog).
  by rewrite lifecycle_calls_app, (lifecycle_calls_data log), app_nil_r.
Qed.

(** Whatever the loop does, [client_main] ends it with the encoder's [Stop]
    and then the uploader's; both were started before, encoder first. *)
Lemma client_main_stop_order (uploader_settings : HttpUploaderSettings)
    (encoder_settings : Cfg) (encoder0 : E) (uploader0 : U) (chunk_buffer0 : B)
    (read_buf_allocated : bool) (ticks : list tick) (tail : list lifecycle_call) :
  let run := lifecycle_calls
               (client_main worker_step CreateFile uploader_settings
                  encoder_settings encoder0 uploader0 chunk_buffer0
                  read_buf_allocated ticks).2 in
  after_prompt run = Some tail →
  tail = [CallStop Encoder; CallStop Uploader]
  ∧ started run = [Encoder; Uploader]
  ∧ stopped run = [Encoder; Uploader].
Proof.
  unfold client_main, start_encoder, client_start_uploader. cbv zeta.
  repeat case_match; simplify_eq; try congruence; simpl; try (intros [=]; fail).
  all: rewrite ?lifecycle_calls_app; simpl.
  all: repeat match goal with H : failed ?s = _ |- context [failed ?s] => rewrite H end.
  all: simpl; try (intros [=]; fail).
  match goal with
  | H : polling_loop _ _ ?c0 = (_, ?c) |- _ =>
      pose proof (polling_loop_lifecycle ticks c0) as Hcalls;
      rewrite H in Hcalls; simpl in Hcalls
  end.
  rewrite Hcalls. simpl.
  intros [= <-].
  by repeat match goal with H : failed ?s = _ |- context [failed ?s] => rewrite H end.
Qed.

End HttpClientFacts.

(** ** Shutdown order *)

Section StopOrder.

Context {E U : Type}.
Context `{encoder_class : !WebmEncoder.methods E (EncoderConfig * U)}.
Context `{uploader_class : !HttpUploader.methods U}.
Context {Bg : Type}.
Variable background : Bg → E * U → E * U.

(** [encoder_main] runs the uploader before the encoder and, after the loop,
    stops the encoder before the uploader. *)
Lemma encoder_main_stop_order (config : WebmEncoderConfig) (encoder : E)
    (uploader : U) (ticks : list Bg) (tail : list lifecycle_call) :
  let run := (encoder_main background config encoder uploader ticks).2 in
  after_prompt run = Some tail →
  tail = [CallStop Encoder; CallStop Uploader]
  ∧ started run = [Uploader; Encoder]
  ∧ stopped run = [Encoder; Uploader].
Proof.
  unfold encoder_main, start_uploader. cbv zeta.
  repeat case_match; simplify_eq; try congruence; simpl.
  all: repeat match goal with H : failed ?s = _ |- context [failed ?s] => rewrite H end.
  all: simpl; try (intros [=]; fail).
  all: by intros [= <-].
Qed.

End StopOrder.

(** C7 as stated fails on the client: with both components started and the
    key hit at once, [client_main] stops the encoder, which it started first,
    before the uploader. *)
Lemma client_main_stops_in_start_order :
  let run := lifecycle_calls (core_client_main 1024 (λ _, true) example_settings []).2 in
  started run = [Encoder; Uploader]
  ∧ after_prompt run = Some [CallStop Encoder; CallStop Uploader]
  ∧ stopped run ≠ reverse (started run).
Proof. cbv zeta. split; [reflexivity|]. split; [reflexivity|]. discriminate. Qed.

(** C7, amended. In every run of either driver that comes to the polling
    loop, what follows the loop is [Stop] on the encoder and then [Stop] on
    the uploader, and these are the components started. [encoder_main] runs
    the uploader before the encoder, so there the order is the reverse of the
    start order; [client_main] starts the encoder first, so there it is the
    start order. *)
Theorem drivers_stop_encoder_then_uploader
    {E1 Cfg U1 B Ev : Type}
    `{client_encoder : !WebmEncoder.methods E1 Cfg}
    `{client_uploader : !HttpUploader.methods U1}
    `{client_buffer : !WebmChunkBuffer.methods B}
    (worker_step : Ev → U1 → U1) (CreateFile : string → Z)
    {E2 U2 Bg : Type}
    `{driver_encoder : !WebmEncoder.methods E2 (EncoderConfig * U2)}
    `{driver_uploader : !HttpUploader.methods U2}
    (background : Bg → E2 * U2 → E2 * U2) :
  (∀ uploader_settings encoder_settings encoder0 uploader0 chunk_buffer0
     read_buf_allocated ticks tail,
     let run := lifecycle_calls
                  (client_main (encoder_class := client_encoder)
                     (uploader_class := client_uploader)
                     (buffer_class := client_buffer)
                     worker_step CreateFile uploader_settings
                     encoder_settings encoder0 uploader0 chunk_buffer0
                     read_buf_allocated ticks).2 in
     after_prompt run = Some tail →
     tail = [CallStop Encoder; CallStop Uploader]
     ∧ started run = [Encoder; Uploader]
     ∧ stopped run = started run)
  ∧ (∀ config encoder uploader ticks tail,
       let run := (encoder_main (encoder_class := driver_encoder)
                     (uploader_class := driver_uploader)
                     background config encoder uploader ticks).2 in
       after_prompt run = Some tail →
       tail = [CallStop Encoder; CallStop Uploader]
       ∧ started run = [Uploader; Encoder]
       ∧ stopped run = reverse (started run)).
Proof.
  split.
  - intros ???????? run Hprompt.
    destruct (client_main_stop_order worker_step CreateFile _ _ _ _ _ _ _ _ Hprompt)
      as (Htail & Hstarted & Hstopped).
    split; [done|]. split; [done|]. subst run. by rewrite Hstopped, Hstarted.
  - intros ????? run Hprompt.
    destruct (encoder_main_stop_order background _ _ _ _ _ Hprompt)
      as (Htail & Hstarted & Hstopped).
    split; [done|]. split; [done|]. subst run. by rewrite Hstopped, Hstarted.
Qed.

(** Both drivers on the core, the key hit after two passes. *)
Lemma drivers_stop_encoder_then_uploader_witness :
  stopped (lifecycle_calls
             (core_client_main 1024 (λ _, true) example_settings
                [ {| file_data := []; alloc_succeeds := true; worker := [] |};
                  {| file_data := []; alloc_succeeds := true; worker := [] |} ]).2)
  = [Encoder; Uploader]
  ∧ stopped (core_encoder_main (config_for "http://example.com/up" "42" "live") [(); ()]).2
    = reverse [Uploader; Encoder].
Proof.
  pose proof (drivers_stop_encoder_then_uploader
                (Cfg := unit) (client_encoder := steady_encoder unit)
                (client_uploader := scheduler_methods true)
                (client_buffer := chunk_buffer_methods 1024 (λ _, true))
                UploadScheduler.worker_step (λ _, kSuccess)
                (driver_encoder := steady_encoder _)
                (driver_uploader := scheduler_methods true)
                (λ (_ : unit) objects, objects)) as [Hclient Hdriver].
  split.
  - destruct (Hclient example_settings tt tt UploadScheduler.created None true
                [ {| file_data := []; alloc_succeeds := true; worker := [] |};
                  {| file_data := []; alloc_succeeds := true; worker := [] |} ]
                _ eq_refl) as (_ & Hstarted & Hstopped).
    etrans; [exact Hstopped|exact Hstarted].
  - destruct (Hdriver (config_for "http://example.com/up" "42" "live") tt
                UploadScheduler.created [(); ()] _ eq_refl)
      as (_ & Hstarted & Hstopped).
    etrans; [exact Hstopped|]. by f_equal.
Defined.

(** ** The chunk buffer of the core *)

Section ChunkBufferFacts.

Import ChunkBuffer.

Lemma total_length_app (l1 l2 : list (list byte)) :
  total_length (l1 ++ l2) = (total_length l1 + total_length l2)%Z.
Proof. induction l1 as [|c l1 IH]; simpl; lia. Qed.

Lemma total_length_nonneg (l : list (list byte)) : (0 ≤ total_length l)%Z.
Proof. induction l as [|c l IH]; simpl; lia. Qed.

Lemma buffered_contents (b : t) : buffered b = Z.of_nat (length (contents b)).
Proof.
  unfold buffered, contents. rewrite length_app, Nat2Z.inj_add.
  assert (total_length (ready b) = Z.of_nat (length (concat (ready b)))) as ->; [|lia].
  induction (ready b) as [|c l IH]; simpl; [done|].
  rewrite length_app, IH. lia.
Qed.

(** A write that would pass the capacity is refused. *)
Lemma Write_full (bytes : list byte) (boundary : bool) (b : t) :
  (buffered b + Z.of_nat (length bytes) > capacity b)%Z →
  Write bytes boundary b = Err BufferFull.
Proof.
  intros Hover. unfold Write.
  destruct (Z.gtb_spec (buffered b + Z.of_nat (length bytes)) (capacity b)); [done|lia].
Qed.

(** A write that fits is taken whole: the bytes are appended to what the
    buffer holds, and the capacity stays. *)
Lemma Write_fits (bytes : list byte) (boundary : bool) (b : t) :
  (buffered b + Z.of_nat (length bytes) ≤ capacity b)%Z →
  ∃ b', Write bytes boundary b = Ok b'
        ∧ contents b' = contents b ++ bytes
        ∧ capacity b' = capacity b
        ∧ ready b' = (if boundary then ready b ++ [assembling b ++ bytes] else ready b)
        ∧ assembling b' = (if boundary then [] else assembling b ++ bytes).
Proof.
  intros Hfits. unfold Write.
  destruct (Z.gtb_spec (buffered b + Z.of_nat (length bytes)) (capacity b)); [lia|].
  destruct boundary; eexists; (split; [done|]); unfold contents; simpl;
    repeat split.
  - by rewrite concat_app, <- !app_assoc, app_nil_r; simpl; rewrite app_nil_r.
  - by rewrite app_assoc.
Qed.

Lemma Write_Ok (bytes : list byte) (boundary : bool) (b b' : t) :
  Write bytes boundary b = Ok b' →
  (buffered b + Z.of_nat (length bytes) ≤ capacity b)%Z
  ∧ contents b' = contents b ++ bytes ∧ capacity b' = capacity b
  ∧ ready b' = (if boundary then ready b ++ [assembling b ++ bytes] else ready b)
  ∧ assembling b' = (if boundary then [] else assembling b ++ bytes).
Proof.
  intros Hw.
  destruct (Z.le_gt_cases (buffered b + Z.of_nat (length bytes)) (capacity b))
    as [Hfits|Hover].
  - destruct (Write_fits bytes boundary b Hfits) as (b1 & Hb1 & ?).
    rewrite Hb1 in Hw. injection Hw as <-. done.
  - rewrite Write_full in Hw by lia. discriminate.
Qed.

Lemma ReadChunk_Ok (length : Z) (b b' : t) (data : list byte) :
  ReadChunk length b = Ok (data, b') →
  ready b = data :: ready b' ∧ length = Z.of_nat (List.length data)
  ∧ assembling b' = assembling b ∧ capacity b' = capacity b.
Proof.
  unfold ReadChunk. destruct (ready b) as [|chunk rest]; [discriminate|].
  destruct (Z.eqb_spec length (Z.of_nat (List.length chunk))); [|discriminate].
  by intros [= <- <-].
Qed.

(** Within the capacity, and with the capacity it was created with. *)
Definition within_capacity (capacityBytes : Z) (b : t) : Prop :=
  capacity b = capacityBytes ∧ (buffered b ≤ capacityBytes)%Z.

Lemma step_within_capacity (capacityBytes : Z) (o : op) (s : t * history) :
  within_capacity capacityBytes s.1 →
  within_capacity capacityBytes (step o s).1.
Proof.
  destruct s as [b h]. intros [Hcap Hle]. simpl in Hcap, Hle.
  destruct o as [bytes boundary|length]; simpl.
  - destruct (Write bytes boundary b) as [b'|e] eqn:Hw; [|done].
    apply Write_Ok in Hw as (Hfits & Hcontents & Hcap' & _).
    split; simpl; [congruence|]. rewrite buffered_contents, Hcontents, length_app.
    rewrite buffered_contents in Hfits. lia.
  - destruct (ReadChunk length b) as [[chunk b']|e] eqn:Hr; [|done].
    apply ReadChunk_Ok in Hr as (Hready & _ & Hasm & Hcap').
    split; simpl; [congruence|]. unfold buffered in *.
    rewrite Hready in Hle. simpl in Hle. rewrite Hasm. lia.
Qed.

Lemma run_within_capacity (capacityBytes : Z) (ops : list op) (s : t * history) :
  within_capacity capacityBytes s.1 →
  within_capacity capacityBytes (run ops s).1.
Proof.
  revert s. induction ops as [|o ops IH]; intros s Hs; [done|].
  simpl. apply IH. by apply step_within_capacity.
Qed.

Lemma Init_Ok (capacityBytes : Z) (b : t) :
  Init capacityBytes = Ok b →
  (0 < capacityBytes)%Z ∧ capacity b = capacityBytes
  ∧ ready b = [] ∧ assembling b = [].
Proof.
  unfold Init. destruct (Z.leb_spec capacityBytes 0); [discriminate|].
  by intros [= <-].
Qed.

(** The chunks completed are the chunks consumed followed by the chunks
    still ready: the queue gives them out in the order they were completed. *)
Definition fifo (s : t * history) : Prop :=
  completed s.2 = consumed s.2 ++ ready s.1.

Lemma step_fifo (o : op) (s : t * history) : fifo s → fifo (step o s).
Proof.
  destruct s as [b h]. unfold fifo. simpl. intros Hfifo.
  destruct o as [bytes boundary|length]; simpl.
  - destruct (Write bytes boundary b) as [b'|e] eqn:Hw; [|done].
    apply Write_Ok in Hw as (_ & _ & _ & Hready & _). simpl. rewrite Hready.
    destruct boundary; [|done]. by rewrite Hfifo, app_assoc.
  - destruct (ReadChunk length b) as [[chunk b']|e] eqn:Hr; [|done].
    apply ReadChunk_Ok in Hr as (Hready & _). simpl.
    rewrite Hfifo, Hready, <- app_assoc. done.
Qed.

Lemma run_fifo (ops : list op) (s : t * history) : fifo s → fifo (run ops s).
Proof.
  revert s. induction ops as [|o ops IH]; intros s Hs; [done|].
  simpl. apply IH. by apply step_fifo.
Qed.

(** Reading with the length [IsChunkReady] gives takes the ready chunks out
    one by one from the oldest. *)
Lemma drain_ready (n : nat) (b : t) :
  (drain n b).1 = take n (ready b)
  ∧ ready (drain n b).2 = drop n (ready b).
Proof.
  revert b. induction n as [|n IH]; intros b; simpl; [done|].
  unfold IsChunkReady, ReadChunk. destruct (ready b) as [|chunk rest] eqn:Hready.
  - simpl. by rewrite Hready.
  - rewrite Z.eqb_refl.
    specialize (IH {| capacity := capacity b; assembling := assembling b;
                      ready := rest |}).
    destruct (drain n _) as [chunks b'']. simpl in *.
    destruct IH as [-> ->]. done.
Qed.

End ChunkBufferFacts.

(** C5. A [Write] whose bytes would take the total buffered size over the
    capacity fails with [BufferFull] and leaves the buffer, and what the two
    sides have seen, as they were. So a buffer made by [Init] never holds
    more than its capacity, whatever is written and read; a write that is
    taken is taken whole, its bytes following what was held; and the refused
    bytes get in by writing them again, which succeeds once reads have made
    room for them. *)
Theorem chunk_buffer_write_beyond_capacity
    (b : ChunkBuffer.t) (bytes : list byte) (boundary : bool) :
  (ChunkBuffer.buffered b + Z.of_nat (length bytes) > ChunkBuffer.capacity b)%Z →
  ChunkBuffer.Write bytes boundary b = Err BufferFull
  ∧ (∀ h, ChunkBuffer.step (ChunkBuffer.OpWrite bytes boundary) (b, h) = (b, h))
  ∧ (∀ capacityBytes b0 ops h,
       ChunkBuffer.Init capacityBytes = Ok b0 →
       (ChunkBuffer.buffered (ChunkBuffer.run ops (b0, h)).1 ≤ capacityBytes)%Z
       ∧ ChunkBuffer.capacity (ChunkBuffer.run ops (b0, h)).1 = capacityBytes)
  ∧ (∀ data flush b1 b2, ChunkBuffer.Write data flush b1 = Ok b2 →
       contents b2 = contents b1 ++ data)
  ∧ (∀ length chunk b1,
       ChunkBuffer.ReadChunk length b = Ok (chunk, b1) →
       (ChunkBuffer.buffered b1 + Z.of_nat (List.length bytes)
        ≤ ChunkBuffer.capacity b1)%Z →
       ∃ b2, ChunkBuffer.Write bytes boundary b1 = Ok b2
             ∧ contents b2 = contents b1 ++ bytes).
Proof.
  intros Hover. pose proof (Write_full bytes boundary b Hover) as Hfull.
  split; [exact Hfull|]. split; [|split; [|split]].
  - intros h. simpl. by rewrite Hfull.
  - intros capacityBytes b0 ops h (Hpos & Hcap & Hready & Hasm)%Init_Ok.
    destruct (run_within_capacity capacityBytes ops (b0, h)) as [Hc Hle]; [|done].
    split; [done|]. unfold ChunkBuffer.buffered. simpl.
    rewrite Hready, Hasm. simpl. lia.
  - intros data flush b1 b2 Hw. by apply Write_Ok in Hw as (_ & ? & _).
  - intros length chunk b1 _ Hroom.
    destruct (Write_fits bytes boundary b1 Hroom) as (b2 & Hw & Hcontents & _).
    eauto.
Qed.

(** A buffer of four bytes that holds a ready chunk of three: two more bytes
    are refused, and go in after the chunk is read. *)
Lemma chunk_buffer_write_beyond_capacity_witness :
  let b := {| ChunkBuffer.capacity := 4; ChunkBuffer.assembling := [];
              ChunkBuffer.ready := [["a"; "b"; "c"]%byte] |} in
  ChunkBuffer.Write ["d"; "e"]%byte true b = Err BufferFull
  ∧ ∃ b2, ChunkBuffer.Write ["d"; "e"]%byte true
            {| ChunkBuffer.capacity := 4; ChunkBuffer.assembling := [];
               ChunkBuffer.ready := [] |} = Ok b2.
Proof.
  cbv zeta.
  pose proof (chunk_buffer_write_beyond_capacity
                {| ChunkBuffer.capacity := 4; ChunkBuffer.assembling := [];
                   ChunkBuffer.ready := [["a"; "b"; "c"]%byte] |}
                ["d"; "e"]%byte true ltac:(vm_compute; reflexivity))
    as (Hfull & _ & _ & _ & Hretry).
  split; [exact Hfull|].
  destruct (Hretry 3%Z ["a"; "b"; "c"]%byte _ eq_refl ltac:(vm_compute; discriminate))
    as (b2 & Hb2 & _).
  by exists b2.
Defined.

(** C6. With a ready chunk, [ReadChunk] with a length other than that of the
    oldest ready chunk fails with [InvalidArgument] and changes nothing; with
    that length it gives exactly the oldest ready chunk, whole, and takes it
    off the queue, leaving the rest of the buffer as it was. *)
Theorem chunk_buffer_read_is_strict
    (b : ChunkBuffer.t) (chunk : list byte) (rest : list (list byte)) (length : Z) :
  ChunkBuffer.ready b = chunk :: rest →
  (length ≠ Z.of_nat (List.length chunk) →
   ChunkBuffer.ReadChunk length b = Err InvalidArgument
   ∧ ∀ h, ChunkBuffer.step (ChunkBuffer.OpReadChunk length) (b, h) = (b, h))
  ∧ (length = Z.of_nat (List.length chunk) →
     ChunkBuffer.ReadChunk length b
     = Ok (chunk, {| ChunkBuffer.capacity := ChunkBuffer.capacity b;
                     ChunkBuffer.assembling := ChunkBuffer.assembling b;
                     ChunkBuffer.ready := rest |}))
  ∧ (∀ data b', ChunkBuffer.ReadChunk length b = Ok (data, b') →
       data = chunk ∧ ChunkBuffer.ready b' = rest
       ∧ contents b = data ++ contents b').
Proof.
  intros Hready. split; [|split].
  - intros Hne. assert (ChunkBuffer.ReadChunk length b = Err InvalidArgument) as Herr.
    { unfold ChunkBuffer.ReadChunk. rewrite Hready.
      by destruct (Z.eqb_spec length (Z.of_nat (List.length chunk))). }
    split; [done|]. intros h. simpl. by rewrite Herr.
  - intros ->. unfold ChunkBuffer.ReadChunk. by rewrite Hready, Z.eqb_refl.
  - intros data b' Hr. apply ReadChunk_Ok in Hr as (Hready' & _ & Hasm & _).
    rewrite Hready in Hready'. injection Hready' as <- Hrest.
    split; [done|]. split; [done|]. unfold contents.
    rewrite Hready, Hasm, <- Hrest. simpl. by rewrite <- app_assoc.
Qed.

(** A chunk of three bytes: a read of two is refused, a read of three gets it. *)
Lemma chunk_buffer_read_is_strict_witness :
  let b := {| ChunkBuffer.capacity := 8; ChunkBuffer.assembling := ["z"%byte];
              ChunkBuffer.ready := [["a"; "b"; "c"]; ["d"]]%byte |} in
  ChunkBuffer.ReadChunk 2 b = Err InvalidArgument
  ∧ ChunkBuffer.ReadChunk 3 b
    = Ok (["a"; "b"; "c"]%byte,
          {| ChunkBuffer.capacity := 8; ChunkBuffer.assembling := ["z"%byte];
             ChunkBuffer.ready := [["d"%byte]] |}).
Proof.
  cbv zeta. split.
  - refine (proj1 (proj1 (chunk_buffer_read_is_strict
                            {| ChunkBuffer.capacity := 8;
                               ChunkBuffer.assembling := ["z"%byte];
                               ChunkBuffer.ready := [["a"; "b"; "c"]; ["d"]]%byte |}
                            _ _ 2 eq_refl) _)).
    discriminate.
  - exact (proj1 (proj2 (chunk_buffer_read_is_strict
                           {| ChunkBuffer.capacity := 8;
                              ChunkBuffer.assembling := ["z"%byte];
                              ChunkBuffer.ready := [["a"; "b"; "c"]; ["d"]]%byte |}
                           _ _ 3 eq_refl)) eq_refl).
Defined.

(** ** The upload scheduler of the core *)

Section SchedulerFacts.

Import UploadScheduler.

Lemma Init_Ok_scheduler (s : HttpUploaderSettings) (u u' : t) :
  Init s u = Ok u' →
  phase u = Idle ∧ phase u' = Initialized ∧ pending u' = [] ∧ sent u' = [].
Proof.
  unfold Init. destruct (phase u); try discriminate.
  repeat case_match; try discriminate. by intros [= <-].
Qed.

Lemma Run_Ok (transport_ok : bool) (u u' : t) :
  Run transport_ok u = Ok u' →
  phase u = Initialized ∧ phase u' = Running
  ∧ pending u' = pending u ∧ sent u' = sent u.
Proof.
  unfold Run. destruct (phase u); try discriminate.
  destruct transport_ok; [|discriminate]. by intros [= <-].
Qed.

Lemma UploadBuffer_Ok (bytes : list byte) (u u' : t) :
  UploadBuffer bytes u = Ok u' →
  phase u = Running ∧ phase u' = Running
  ∧ pending u' = pending u ++ [bytes] ∧ sent u' = sent u.
Proof.
  unfold UploadBuffer. destruct (phase u); try discriminate. by intros [= <-].
Qed.

Lemma UploadBuffer_Running (bytes : list byte) (u : t) :
  phase u = Running → ∃ u', UploadBuffer bytes u = Ok u'.
Proof. unfold UploadBuffer. intros ->. by eexists. Qed.

Lemma UploadComplete_true (u : t) :
  UploadComplete u = true ↔ phase u = Running ∧ pending u = [].
Proof.
  unfold UploadComplete. destruct (phase u), (pending u); split;
    try done; intros [? ?]; done.
Qed.

(** A transfer is under way or queued. *)
Definition busy (u : t) : Prop := phase u = Running ∧ pending u ≠ [].

Lemma busy_not_complete (u : t) : busy u → UploadComplete u = false.
Proof.
  intros [Hphase Hpending]. apply not_true_is_false.
  by intros [_ ?]%UploadComplete_true.
Qed.

(** Only the end of a transfer lets a busy scheduler go. *)
Lemma step_busy (o : op) (u : t) :
  ends_transfer o = false → busy u → busy (step o u).
Proof.
  intros Hends [Hphase Hpending]. destruct o; try discriminate; simpl.
  - unfold Init. by rewrite Hphase.
  - unfold Run. by rewrite Hphase.
  - unfold UploadBuffer. rewrite Hphase. simpl. split; [done|].
    by destruct (pending u).
  - done.
Qed.

Lemma run_busy_until_end (ops : list op) (u : t) :
  busy u → UploadComplete (run ops u) = true →
  Exists (λ o, ends_transfer o = true) ops.
Proof.
  revert u. induction ops as [|o ops IH]; intros u Hbusy; simpl.
  - rewrite busy_not_complete by done. discriminate.
  - intros Hcomplete. destruct (ends_transfer o) eqn:Hends.
    + by apply Exists_cons_hd.
    + apply Exists_cons_tl. eapply IH; [|done]. by apply step_busy.
Qed.

(** What has been sent and what waits, in this order, is among the chunks
    handed over, in the order they were handed over. *)
Lemma step_in_order (o : op) (u : t) (l : list (list byte)) :
  sent u ++ pending u `sublist_of` l →
  sent (step o u) ++ pending (step o u) `sublist_of` l ++ handed [o].
Proof.
  intros Hsub. destruct o as [s|ok|bytes| |e|]; simpl; rewrite ?app_nil_r.
  - destruct (Init s u) as [u'|] eqn:HI; simpl; [|done].
    apply Init_Ok_scheduler in HI as (_ & _ & -> & ->). apply sublist_nil_l.
  - destruct (Run ok u) as [u'|] eqn:HR; simpl; [|done].
    by apply Run_Ok in HR as (_ & _ & -> & ->).
  - destruct (UploadBuffer bytes u) as [u'|] eqn:HU; simpl.
    + apply UploadBuffer_Ok in HU as (_ & _ & -> & ->).
      rewrite app_assoc. by apply sublist_app.
    + by apply sublist_inserts_r.
  - done.
  - unfold worker_step. destruct (phase u); try done.
    destruct (pending u) as [|chunk rest] eqn:Hpending; simpl.
    { by rewrite Hpending. }
    destruct e.
    + by rewrite <- app_assoc.
    + etrans; [|done]. apply sublist_app; [done|]. by apply sublist_cons.
  - unfold Stop. destruct (phase u); try done. simpl. rewrite app_nil_r.
    etrans; [|done]. by apply sublist_inserts_r.
Qed.

Lemma handed_app (ops1 ops2 : list op) :
  handed (ops1 ++ ops2) = handed ops1 ++ handed ops2.
Proof. apply omap_app. Qed.

Lemma run_in_order (ops : list op) (u : t) (l : list (list byte)) :
  sent u ++ pending u `sublist_of` l →
  sent (run ops u) ++ pending (run ops u) `sublist_of` l ++ handed ops.
Proof.
  revert u l. induction ops as [|o ops IH]; intros u l Hsub.
  - simpl. by rewrite app_nil_r.
  - change (handed (o :: ops)) with (handed ([o] ++ ops)).
    rewrite handed_app, app_assoc.
    apply (IH (step o u)). by apply step_in_order.
Qed.

End SchedulerFacts.

(** ** The client's loop on the core *)

Lemma failed_error_status (e : error) : failed (error_status e) = true.
Proof. by destruct e. Qed.

Lemma frame_snoc (framing : list byte → bool) (writes : list (list byte))
    (assembling data : list byte) :
  frame framing assembling (writes ++ [data])
  = let '(chunks, remainder) := frame framing assembling writes in
    if framing (remainder ++ data) then (chunks ++ [remainder ++ data], [])
    else (chunks, remainder ++ data).
Proof.
  revert assembling. induction writes as [|w writes IH]; intros assembling; simpl.
  - by destruct (framing (assembling ++ data)).
  - destruct (framing (assembling ++ w)).
    + rewrite IH. destruct (frame framing [] writes) as [chunks remainder].
      by destruct (framing (remainder ++ data)).
    + apply IH.
Qed.

Section LogFacts.

Context {Ev : Type}.
Implicit Types log more : list (@client_call Ev).

Lemma buffered_writes_app log more :
  buffered_writes (log ++ more) = buffered_writes log ++ buffered_writes more.
Proof. apply omap_app. Qed.

Lemma read_chunks_app log more :
  read_chunks (log ++ more) = read_chunks log ++ read_chunks more.
Proof. apply omap_app. Qed.

Lemma uploads_app log more : uploads (log ++ more) = uploads log ++ uploads more.
Proof. apply omap_app. Qed.

Lemma worker_steps_no_data (events : list Ev) :
  buffered_writes (WorkerStep <$> events) = []
  ∧ read_chunks (WorkerStep <$> events) = []
  ∧ uploads (WorkerStep <$> events) = [].
Proof. induction events as [|e events IH]; [done|]. exact IH. Qed.

End LogFacts.

Section CoreClientFacts.

Variables (capacityBytes : Z) (framing : list byte → bool).

Local Abbreviation core_client :=
  (@client unit UploadScheduler.t (option ChunkBuffer.t) UploadScheduler.worker_event).
Local Abbreviation core_upload :=
  (upload_next_chunk (E := unit) (uploader_class := scheduler_methods true)
     (buffer_class := chunk_buffer_methods capacityBytes framing)
     (Ev := UploadScheduler.worker_event)).
Local Abbreviation core_pass :=
  (polling_pass (E := unit) (uploader_class := scheduler_methods true)
     (buffer_class := chunk_buffer_methods capacityBytes framing)
     (Ev := UploadScheduler.worker_event)).
Local Abbreviation core_sleep :=
  (sleep (E := unit) (B := option ChunkBuffer.t) UploadScheduler.worker_step).
Local Abbreviation core_loop :=
  (polling_loop (E := unit) (uploader_class := scheduler_methods true)
     (buffer_class := chunk_buffer_methods capacityBytes framing)
     UploadScheduler.worker_step).

(** The loop's invariant: the chunks completed from the writes made are the
    chunks read followed by the chunks ready; every chunk read was handed to
    the uploader; the uploader runs with at most one chunk not yet
    transferred, and the replay of the calls agrees with it. *)
Definition in_step (c : core_client) : Prop :=
  ∃ buf, chunk_buffer c = Some buf
    ∧ frame framing [] (buffered_writes (calls c))
      = (read_chunks (calls c) ++ ChunkBuffer.ready buf, ChunkBuffer.assembling buf)
    ∧ uploads (calls c) = read_chunks (calls c)
    ∧ UploadScheduler.phase (uploader c) = UploadScheduler.Running
    ∧ (length (UploadScheduler.pending (uploader c)) ≤ 1)%nat
    ∧ foldl replay_transfer (Some false) (calls c)
      = Some (bool_decide (UploadScheduler.pending (uploader c) ≠ [])).

Lemma upload_next_chunk_in_step (t : tick) (c : core_client) :
  in_step c → in_step (core_upload t c).1.
Proof.
  intros Hc. pose proof Hc as (buf & Hbuf & Hframe & Hup & Hphase & Hlen & Hreplay).
  unfold upload_next_chunk. simpl.
  destruct (UploadScheduler.UploadComplete (uploader c)) eqn:Hcomplete; [|done].
  apply UploadComplete_true in Hcomplete as [_ Hidle].
  rewrite Hbuf. simpl. unfold ChunkBuffer.IsChunkReady.
  destruct (ChunkBuffer.ready buf) as [|chunk rest] eqn:Hready; [done|].
  destruct ((Z.of_nat (length chunk) >? read_buffer_size c)%Z
            && negb (alloc_succeeds t)); [done|].
  clear Hc.
  set (c1 := if (Z.of_nat (length chunk) >? read_buffer_size c)%Z then _ else c).
  assert (Hc1 : chunk_buffer c1 = Some buf ∧ calls c1 = calls c
                ∧ uploader c1 = uploader c)
    by (subst c1; by case_match).
  destruct Hc1 as (Hb1 & Hcalls1 & Hu1). clearbody c1.
  rewrite Hb1. unfold ChunkBuffer.ReadChunk. rewrite Hready, Z.eqb_refl. simpl.
  unfold UploadScheduler.UploadBuffer. rewrite Hu1, Hphase. simpl.
  eexists. split; [done|]. simpl. rewrite Hcalls1, <- !app_assoc. simpl.
  rewrite buffered_writes_app, read_chunks_app, uploads_app, foldl_app. simpl.
  rewrite app_nil_r, Hframe, Hup, Hreplay, Hidle, <- app_assoc. simpl.
  repeat split; try done.
Qed.

Lemma polling_pass_in_step (t : tick) (c : core_client) :
  in_step c → in_step (core_pass t c).1.
Proof.
  intros Hc. unfold polling_pass. case_match; [|by apply upload_next_chunk_in_step].
  destruct Hc as (buf & Hbuf & Hframe & Hup & Hphase & Hlen & Hreplay).
  set (data := take (Z.to_nat (read_buffer_size c)) (file_data t)).
  simpl. rewrite Hbuf.
  destruct (ChunkBuffer.Write data _ buf) as [buf'|e] eqn:Hw.
  - simpl. apply upload_next_chunk_in_step.
    apply Write_Ok in Hw as (_ & _ & _ & Hready' & Hasm').
    exists buf'. split; [done|]. simpl.
    rewrite buffered_writes_app, read_chunks_app, uploads_app, foldl_app. simpl.
    rewrite !app_nil_r, Hreplay. split; [|done].
    rewrite frame_snoc, Hframe, Hready', Hasm'.
    destruct (framing (ChunkBuffer.assembling buf ++ data)); [|done].
    by rewrite app_assoc.
  - rewrite failed_error_status. exists buf. split; [done|]. simpl.
    rewrite buffered_writes_app, read_chunks_app, uploads_app, foldl_app. simpl.
    rewrite failed_error_status. by rewrite !app_nil_r, Hreplay.
Qed.

Lemma worker_steps_in_step (events : list UploadScheduler.worker_event)
    (u : UploadScheduler.t) (s : option bool) :
  UploadScheduler.phase u = UploadScheduler.Running →
  (length (UploadScheduler.pending u) ≤ 1)%nat →
  s = Some (bool_decide (UploadScheduler.pending u ≠ [])) →
  let u' := foldl (λ u e, UploadScheduler.worker_step e u) u events in
  UploadScheduler.phase u' = UploadScheduler.Running
  ∧ (length (UploadScheduler.pending u') ≤ 1)%nat
  ∧ foldl replay_transfer s (WorkerStep <$> events)
    = Some (bool_decide (UploadScheduler.pending u' ≠ [])).
Proof.
  revert u s. induction events as [|e events IH]; intros u s Hphase Hlen ->; [done|].
  simpl. apply IH.
  - unfold UploadScheduler.worker_step. rewrite Hphase.
    by destruct (UploadScheduler.pending u).
  - unfold UploadScheduler.worker_step. rewrite Hphase.
    destruct (UploadScheduler.pending u) as [|chunk rest] eqn:Hp; simpl.
    + rewrite Hp. simpl. lia.
    + simpl in Hlen. lia.
  - unfold UploadScheduler.worker_step. rewrite Hphase.
    destruct (UploadScheduler.pending u) as [|chunk [|? rest]] eqn:Hp; simpl.
    + by rewrite Hp.
    + done.
    + simpl in Hlen. lia.
Qed.

Lemma sleep_in_step (t : tick) (c : core_client) :
  in_step c → in_step (core_sleep t c).
Proof.
  intros (buf & Hbuf & Hframe & Hup & Hphase & Hlen & Hreplay).
  destruct (worker_steps_in_step (worker t) (uploader c) _ Hphase Hlen eq_refl)
    as (Hphase' & Hlen' & Hreplay').
  destruct (worker_steps_no_data (worker t)) as (Hw & Hr & Hu).
  exists buf. split; [done|]. simpl.
  rewrite buffered_writes_app, read_chunks_app, uploads_app, foldl_app.
  by rewrite Hw, Hr, Hu, !app_nil_r, Hreplay.
Qed.

Lemma polling_loop_in_step (ticks : list tick) (c : core_client) :
  in_step c → in_step (core_loop ticks c).2.
Proof.
  apply (polling_loop_invariant UploadScheduler.worker_step in_step).
  - apply polling_pass_in_step.
  - apply sleep_in_step.
Qed.

End CoreClientFacts.

Lemma core_client_main_in_order (capacityBytes : Z) (framing : list byte → bool)
    (settings : HttpUploaderSettings) (ticks : list tick) :
  let calls := (core_client_main capacityBytes framing settings ticks).2 in
  produced framing calls = read_chunks calls ++ drop (length (read_chunks calls)) (produced framing calls)
  ∧ uploads calls = read_chunks calls
  ∧ one_in_flight calls.
Proof.
  unfold core_client_main, client_main, start_encoder, client_start_uploader.
  cbv zeta. simpl.
  destruct (UploadScheduler.Init settings UploadScheduler.created) as [u1|e] eqn:HI; simpl.
  2: { destruct e; unfold produced, one_in_flight; simpl;
         repeat split; by eexists. }
  apply Init_Ok_scheduler in HI as (_ & Hphase1 & Hpending1 & Hsent1).
  unfold UploadScheduler.Run. rewrite Hphase1. simpl.
  destruct (ChunkBuffer.Init capacityBytes) as [buf0|e] eqn:HB; simpl.
  2: { destruct e; unfold produced, one_in_flight; simpl;
         repeat split; by eexists. }
  apply Init_Ok in HB as (_ & _ & Hready0 & Hasm0).
  match goal with
  | |- context [polling_loop _ ticks ?c0] =>
      pose proof (polling_loop_in_step capacityBytes framing ticks c0) as Hstep;
      destruct (polling_loop UploadScheduler.worker_step ticks c0) as [exit_code c]
  end.
  destruct Hstep as (buf & Hbuf & Hframe & Hup & Hphase & Hlen & Hreplay).
  { exists buf0. simpl. rewrite Hready0, Hasm0, Hpending1.
    repeat split; try done; try (simpl; lia).
    all: by rewrite bool_decide_eq_false_2 by naive_solver. }
  simpl in *. unfold produced, one_in_flight.
  rewrite buffered_writes_app, read_chunks_app, uploads_app, foldl_app. simpl.
  rewrite !app_nil_r, Hframe, Hreplay. simpl.
  split; [|by split]. by rewrite drop_app_length.
Qed.

Definition is_write (o : ChunkBuffer.op) : Prop :=
  match o with ChunkBuffer.OpWrite _ _ => True | _ => False end.

Lemma writes_consume_nothing (ops : list ChunkBuffer.op)
    (s : ChunkBuffer.t * ChunkBuffer.history) :
  Forall is_write ops →
  ChunkBuffer.consumed (ChunkBuffer.run ops s).2 = ChunkBuffer.consumed s.2.
Proof.
  intros Hops. revert s. induction Hops as [|o ops Ho _ IH]; intros s; [done|].
  simpl. rewrite IH. destruct s as [b h], o as [bytes boundary|]; [|done].
  simpl. by destruct (ChunkBuffer.Write bytes boundary b).
Qed.

(** C1. The chunks come out in the order they were completed. In the chunk
    buffer, after any calls on a buffer made by [Init], the chunks completed
    are the chunks read so far followed by the chunks still ready; so after
    writes alone, reading [n] chunks gives the first [n] chunks completed.
    In every run of the client on the core, the chunks read from the buffer
    are the first of the chunks its writes completed, they are the chunks
    handed to the uploader, in the same order, and each was handed over with
    no transfer under way: the one before had finished or failed. And in the
    scheduler what is sent, followed by what waits, is among the chunks
    handed over in the order they were handed over. *)
Theorem chunks_are_delivered_in_order :
  (∀ capacityBytes b0 ops,
     ChunkBuffer.Init capacityBytes = Ok b0 →
     let s := ChunkBuffer.run ops (b0, no_history) in
     ChunkBuffer.completed s.2 = ChunkBuffer.consumed s.2 ++ ChunkBuffer.ready s.1)
  ∧ (∀ capacityBytes b0 ops n,
       ChunkBuffer.Init capacityBytes = Ok b0 →
       Forall is_write ops →
       let s := ChunkBuffer.run ops (b0, no_history) in
       (ChunkBuffer.drain n s.1).1 = take n (ChunkBuffer.completed s.2))
  ∧ (∀ capacityBytes framing settings ticks,
       let calls := (core_client_main capacityBytes framing settings ticks).2 in
       read_chunks calls `prefix_of` produced framing calls
       ∧ uploads calls = read_chunks calls
       ∧ one_in_flight calls)
  ∧ (∀ ops,
       let u := UploadScheduler.run ops UploadScheduler.created in
       UploadScheduler.sent u ++ UploadScheduler.pending u `sublist_of` handed ops).
Proof.
  assert (Hfifo : ∀ capacityBytes b0 ops,
            ChunkBuffer.Init capacityBytes = Ok b0 →
            fifo (ChunkBuffer.run ops (b0, no_history))).
  { intros capacityBytes b0 ops (_ & _ & Hready & _)%Init_Ok.
    apply run_fifo. unfold fifo. simpl. by rewrite Hready. }
  split; [exact Hfifo|]. split; [|split].
  - intros capacityBytes b0 ops n Hinit Hwrites s.
    pose proof (Hfifo _ _ ops Hinit) as Hs. unfold fifo in Hs. fold s in Hs.
    rewrite Hs. subst s. rewrite writes_consume_nothing by done. simpl.
    apply drain_ready.
  - intros capacityBytes framing settings ticks calls.
    destruct (core_client_main_in_order capacityBytes framing settings ticks)
      as (Hprefix & Hup & Hone).
    split; [|by split]. eexists. exact Hprefix.
  - intros ops u. apply (run_in_order ops UploadScheduler.created []). done.
Qed.

(** A chunk ends at a full stop. *)
Definition stop_framing (bytes : list byte) : bool :=
  match last bytes with Some "."%byte => true | _ => false end.

(** Two chunks written over three passes, the worker finishing the first
    transfer in between: they are uploaded in the order written. *)
Lemma chunks_are_delivered_in_order_witness :
  let ticks :=
    [ {| file_data := ["a"; "."]%byte; alloc_succeeds := true; worker := [] |};
      {| file_data := ["b"]%byte; alloc_succeeds := true;
         worker := [UploadScheduler.TransferFinished] |};
      {| file_data := ["c"; "."]%byte; alloc_succeeds := true; worker := [] |} ] in
  let calls := (core_client_main 16 stop_framing example_settings ticks).2 in
  uploads calls = [["a"; "."]; ["b"; "c"; "."]]%byte
  ∧ read_chunks calls `prefix_of` produced stop_framing calls
  ∧ one_in_flight calls.
Proof.
  cbv zeta. split; [reflexivity|].
  destruct chunks_are_delivered_in_order as (_ & _ & Hclient & _).
  destruct (Hclient 16 stop_framing example_settings
              [ {| file_data := ["a"; "."]%byte; alloc_succeeds := true; worker := [] |};
                {| file_data := ["b"]%byte; alloc_succeeds := true;
                   worker := [UploadScheduler.TransferFinished] |};
                {| file_data := ["c"; "."]%byte; alloc_succeeds := true; worker := [] |} ])
    as (Hprefix & _ & Hone).
  split; [exact Hprefix|exact Hone].
Defined.

(** ** One transfer at a time *)

Section Gating.

Context {E U B Ev : Type}.
Context `{uploader_class : !HttpUploader.methods U}.
Context `{buffer_class : !WebmChunkBuffer.methods B}.

(** A pass in which [UploadComplete] answers false calls no [UploadBuffer]
    and leaves the uploader alone. *)
Lemma polling_pass_gated (t : tick) (c : @client E U B Ev) :
  HttpUploader.UploadComplete (uploader c) = false →
  uploader (polling_pass t c).1 = uploader c
  ∧ uploads (calls (polling_pass t c).1) = uploads (calls c).
Proof.
  intros Hbusy. unfold polling_pass, upload_next_chunk.
  case_match.
  - destruct (WebmChunkBuffer.BufferData _ _) as [status b1].
    destruct (failed status) eqn:Hstatus; simpl; rewrite ?Hbusy; simpl;
      rewrite uploads_app; simpl; by rewrite app_nil_r.
  - by rewrite Hbusy.
Qed.

End Gating.

(** C2. [UploadComplete] is true after [Init] and [Run], before any
    [UploadBuffer]; so it is when [start_uploader] has returned success. It
    is false after a successful [UploadBuffer], and whatever is called then,
    it is true again only after the worker has ended a transfer or [Stop]
    has cancelled it. The client's loop makes no [UploadBuffer] call in a
    pass where [UploadComplete] answers false, and in every run of the
    client on the core each chunk is handed over with no transfer under
    way. *)
Theorem upload_complete_gates_uploads :
  (∀ s transport_ok u0 u1 u2,
     UploadScheduler.Init s u0 = Ok u1 →
     UploadScheduler.Run transport_ok u1 = Ok u2 →
     UploadScheduler.UploadComplete u2 = true)
  ∧ (∀ transport_ok config,
       let r := start_uploader (uploader_class := scheduler_methods transport_ok)
                  config UploadScheduler.created in
       failed r.1.1.1 = false → UploadScheduler.UploadComplete r.1.2 = true)
  ∧ (∀ bytes u u',
       UploadScheduler.UploadBuffer bytes u = Ok u' →
       UploadScheduler.UploadComplete u' = false
       ∧ ∀ ops, UploadScheduler.UploadComplete (UploadScheduler.run ops u') = true →
                Exists (λ o, UploadScheduler.ends_transfer o = true) ops)
  ∧ (∀ capacityBytes framing t
       (c : @client unit UploadScheduler.t (option ChunkBuffer.t)
                    UploadScheduler.worker_event),
       UploadScheduler.UploadComplete (uploader c) = false →
       let c' := (polling_pass (uploader_class := scheduler_methods true)
                    (buffer_class := chunk_buffer_methods capacityBytes framing)
                    t c).1 in
       uploader c' = uploader c ∧ uploads (calls c') = uploads (calls c))
  ∧ (∀ capacityBytes framing settings ticks,
       one_in_flight (core_client_main capacityBytes framing settings ticks).2).
Proof.
  assert (Hstart : ∀ s transport_ok u0 u1 u2,
            UploadScheduler.Init s u0 = Ok u1 →
            UploadScheduler.Run transport_ok u1 = Ok u2 →
            UploadScheduler.UploadComplete u2 = true).
  { intros s transport_ok u0 u1 u2 (_ & _ & Hpending & _)%Init_Ok_scheduler
      (_ & Hphase & Hsame & _)%Run_Ok.
    apply UploadComplete_true. split; [done|]. by rewrite Hsame. }
  split; [exact Hstart|]. split; [|split; [|split]].
  - intros transport_ok config r. subst r. unfold start_uploader. simpl.
    destruct (UploadScheduler.Init _ _) as [u1|e] eqn:HI; simpl.
    2: { rewrite failed_error_status. simpl. rewrite failed_error_status.
         intros [=]. }
    destruct (UploadScheduler.Run transport_ok u1) as [u2|e] eqn:HR; simpl;
      [intros _; by eapply Hstart|rewrite failed_error_status; intros [=]].
  - intros bytes u u' (_ & Hphase & Hpending & _)%UploadBuffer_Ok.
    assert (Hbusy : busy u').
    { split; [done|]. rewrite Hpending. by destruct (UploadScheduler.pending u). }
    split; [by apply busy_not_complete|].
    intros ops. by apply run_busy_until_end.
  - intros capacityBytes framing t c Hbusy c'. subst c'.
    by apply (polling_pass_gated (uploader_class := scheduler_methods true)).
  - intros capacityBytes framing settings ticks.
    by destruct (core_client_main_in_order capacityBytes framing settings ticks)
      as (_ & _ & Hone).
Qed.

(** The scheduler after [start_uploader] is idle; with a chunk handed over it
    is not, until the worker is done with it. *)
Lemma upload_complete_gates_uploads_witness :
  let u := (start_uploader (uploader_class := scheduler_methods true)
              (config_for "http://example.com/up" "42" "live")
              UploadScheduler.created).1.2 in
  UploadScheduler.UploadComplete u = true
  ∧ UploadScheduler.UploadComplete
      (UploadScheduler.run [UploadScheduler.OpUploadBuffer ["a"%byte]] u) = false
  ∧ UploadScheduler.UploadComplete
      (UploadScheduler.run
         [UploadScheduler.OpUploadBuffer ["a"%byte];
          UploadScheduler.OpWorker UploadScheduler.TransferFinished] u) = true.
Proof.
  cbv zeta.
  destruct upload_complete_gates_uploads as (_ & Hstart & _).
  split; [|split; reflexivity].
  exact (Hstart true (config_for "http://example.com/up" "42" "live") eq_refl).
Defined.

(** * Further properties of the drivers *)

(** ** Name and value of an entry *)

Section EntryFacts.

Import StdString.

Lemma find_app_fresh (c : ascii) (p q : string) :
  find c p = None → find c (p +:+ String c q) = Some (String.length p).
Proof.
  induction p as [|a p IH]; simpl.
  - by rewrite Ascii.eqb_refl.
  - destruct (Ascii.eqb a c); [discriminate|].
    destruct (find c p); [discriminate|]. intros _. by rewrite IH.
Qed.

Lemma take_app_length (p q : string) : take (String.length p) (p +:+ q) = p.
Proof. induction p as [|a p IH]; simpl; [by destruct q|by rewrite IH]. Qed.

Lemma drop_app_length (p q : string) : drop (String.length p) (p +:+ q) = q.
Proof. induction p as [|a p IH]; simpl; [by destruct q|exact IH]. Qed.

Lemma c_str_no_nul (s : string) : find Ascii.zero s = None → c_str s = s.
Proof.
  induction s as [|a s IH]; simpl; [done|].
  destruct (Ascii.eqb a Ascii.zero); [discriminate|].
  destruct (find Ascii.zero s); [discriminate|]. intros _. by rewrite IH.
Qed.

(** An entry [name:value] whose name has no colon and no NUL binds the name
    to the value, whatever the value is. *)
Lemma entry_binding_name_value (name value : string) :
  find ":" name = None → find Ascii.zero name = None →
  entry_binding (name +:+ String ":" value) = Some (name, value).
Proof.
  intros Hcolon Hnul. unfold entry_binding.
  rewrite find_app_fresh by done. simpl.
  rewrite take_app_length, c_str_no_nul by done.
  do 3 f_equal. clear. induction name as [|a name IH]; simpl; [done|exact IH].
Qed.

End EntryFacts.

Section StoreSuccess.

Variables (status_success status_bad_format : Z).
Hypothesis statuses_differ : status_success ≠ status_bad_format.

Local Abbreviation store := (store_entries status_success status_bad_format).

Lemma store_entries_status (entries : list string) (out_map : gmap string string) :
  (store entries out_map).1 = status_success ↔ Forall well_formed_entry entries.
Proof.
  revert out_map. induction entries as [|entry entries IH]; intros out_map; simpl.
  - split; [by constructor|done].
  - destruct (StdString.find ":" entry) as [sep|] eqn:Hsep.
    + rewrite IH. split.
      * intros Hrest. constructor; [by eexists|done].
      * by intros [_ Hrest]%Forall_cons.
    + simpl. split; [by intros ?%symmetry|].
      intros [[sep Hsome] _]%Forall_cons. congruence.
Qed.

Lemma store_entries_all (entries : list string) (out_map : gmap string string) :
  Forall well_formed_entry entries →
  store entries out_map = (status_success, insert_entries entries out_map).
Proof.
  intros Hwf. rewrite <- (app_nil_r entries) at 1.
  by rewrite store_well_formed_prefix.
Qed.

End StoreSuccess.

(** X1. Both copies of [store_string_map_entries] return their success
    status exactly when every entry has a colon, and then the map is the one
    given with every entry inserted from left to right; in particular the
    empty list succeeds and leaves the map alone. *)
Theorem store_string_map_entries_succeeds_iff_well_formed
    (entries : list string) (out_map : gmap string string) :
  ((store_string_map_entries entries out_map).1 = kSuccess
   ↔ Forall well_formed_entry entries)
  ∧ ((client_store_string_map_entries entries out_map).1 = ERROR_SUCCESS
     ↔ Forall well_formed_entry entries)
  ∧ (Forall well_formed_entry entries →
     store_string_map_entries entries out_map
     = (kSuccess, insert_entries entries out_map)
     ∧ client_store_string_map_entries entries out_map
       = (ERROR_SUCCESS, insert_entries entries out_map))
  ∧ store_string_map_entries [] out_map = (kSuccess, out_map).
Proof.
  split; [by apply store_entries_status|].
  split; [by apply store_entries_status|].
  split; [|done]. intros Hwf.
  split; by apply store_entries_all.
Qed.

(** X2. After a successful [store_string_map_entries], looking up the name of
    the last entry [name:value] gives its value: the entry is split at its
    first colon, so the value may hold colons or be empty and the name may
    be empty, and a later entry overwrites an earlier one of the same name. *)
Theorem store_string_map_entries_last_entry_wins
    (entries : list string) (name value : string) (out_map : gmap string string) :
  Forall well_formed_entry entries →
  StdString.find ":" name = None →
  StdString.find Ascii.zero name = None →
  ∃ final,
    store_string_map_entries (entries ++ [name +:+ String ":" value]) out_map
    = (kSuccess, final)
    ∧ final !! name = Some value
    ∧ ∀ other, other ≠ name →
        final !! other = insert_entries entries out_map !! other.
Proof.
  intros Hwf Hcolon Hnul.
  pose proof (entry_binding_name_value name value Hcolon Hnul) as Hbinding.
  eexists. split.
  - apply store_entries_all. apply Forall_app. split; [done|].
    repeat constructor. unfold well_formed_entry.
    unfold entry_binding in Hbinding.
    by destruct (StdString.find ":" (name +:+ String ":" value)); [eexists|].
  - unfold insert_entries. rewrite foldl_app. simpl. rewrite Hbinding.
    split; [apply lookup_insert_eq|].
    intros other Hother. by apply lookup_insert_ne.
Qed.

(** A second [Host] header replaces the first; its value keeps its colon. *)
Lemma store_string_map_entries_last_entry_wins_witness :
  ∃ final,
    store_string_map_entries ["Host:a"; "Host:b:8080"] ∅ = (kSuccess, final)
    ∧ final !! "Host" = Some "b:8080".
Proof.
  destruct (store_string_map_entries_last_entry_wins ["Host:a"] "Host" "b:8080" ∅)
    as (final & Hstore & Hlookup & _).
  - repeat constructor. by eexists.
  - reflexivity.
  - reflexivity.
  - exists final. split; [exact Hstore|exact Hlookup].
Defined.

(** ** Arguments the parser passes over, and arguments it takes *)

Section ParserReading.

Lemma streq_false (a b : string) : a ≠ b → streq a b = false.
Proof. unfold streq. intros Hne. by apply String.eqb_neq. Qed.

Lemma streq_other (name arg : string) (names : list string) :
  name ∈ names → arg ∉ names → streq name arg = false.
Proof. intros Hin Hout. apply streq_false. by intros ->. Qed.

Lemma option_kind_of_None (arg : string) (table : list (string * option_kind)) :
  arg ∉ (fst <$> table) → option_kind_of arg table = None.
Proof.
  induction table as [|[name kind] table IH]; [done|]. simpl.
  intros Hout. apply not_elem_of_cons in Hout as [Hne Hout].
  rewrite streq_false by done. by apply IH.
Qed.

Lemma option_kind_of_Some (arg : string) (kind : option_kind)
    (table : list (string * option_kind)) :
  option_kind_of arg table = Some kind → (arg, kind) ∈ table.
Proof.
  induction table as [|[name kind'] table IH]; [done|]. simpl.
  destruct (streq name arg) eqn:Heq.
  - apply streq_true in Heq. intros [= ->]. subst. by left.
  - intros Hrest. right. by apply IH.
Qed.


End ParserReading.

Section ParserExtras.

Lemma plain_switch_unguarded (arg : string) :
  option_kind_of arg encoder_options = Some PlainSwitch → arg ∈ unguarded_options.
Proof.
  intros Hkind%option_kind_of_Some.
  assert (Hall : Forall (λ e : string * option_kind,
                           e.2 = PlainSwitch → e.1 ∈ unguarded_options)
                   encoder_options).
  { unfold encoder_options.
    repeat (apply Forall_cons_2;
            [simpl; intros Heq; first [discriminate
                                      |apply (bool_decide_unpack _); by vm_compute]|]).
    apply Forall_nil_2. }
  rewrite Forall_forall in Hall. by apply (Hall _ Hkind).
Qed.

Ltac known name names :=
  assert (name ∈ names) by (apply (bool_decide_unpack _); by vm_compute).

(** X3. [parse_command_line] passes over an argument that is none of its
    option names, and over an option that asks for a value when it is the
    last argument or is followed by a null pointer: the settings and the
    collected headers and variables stay as they are, and the loop goes on
    with the next argument. Only the help flags and the plain switches act
    without a following argument. *)
Theorem parse_argument_passes_over
    (argv : arguments) (i : nat) (arg : string) (st : parse_state) :
  argv !! i = Some (Some arg) →
  arg ∉ option_names
  ∨ (arg_has_value i argv = false ∧ arg ∉ unguarded_options) →
  parse_argument i argv st = Next i st.
Proof.
  intros Hi Hcase. unfold parse_argument, parse_encoder_option. rewrite Hi.
  destruct Hcase as [Hunknown|[Hvalue Hguarded]].
  - known "-h" option_names. known "-?" option_names. known "--help" option_names.
    known "--dash" option_names. known "--dash_dir" option_names.
    known "--dash_name" option_names. known "--dash_start_number" option_names.
    known "--url" option_names. known "--header" option_names.
    known "--form_post" option_names. known "--var" option_names.
    known "--stream_name" option_names. known "--stream_id" option_names.
    rewrite !(streq_other _ arg option_names) by done. cbn [orb andb].
    rewrite option_kind_of_None; [done|].
    intros Hin. apply Hunknown. unfold option_names.
    rewrite !elem_of_app. auto.
  - rewrite Hvalue, !andb_false_r.
    known "-h" unguarded_options. known "-?" unguarded_options.
    known "--help" unguarded_options. known "--dash" unguarded_options.
    rewrite !(streq_other _ arg unguarded_options) by done. cbn [orb andb].
    destruct (option_kind_of arg encoder_options) as [[]|] eqn:Hkind; try done.
    by apply plain_switch_unguarded in Hkind.
Qed.

(** An unknown word, then [--url] with nothing after it. *)
Lemma parse_argument_passes_over_witness :
  parse_argument 1 (command_line ["encoder"; "--bogus"; "--url"])
    (parse_start empty_config)
  = Next 1 (parse_start empty_config)
  ∧ parse_argument 2 (command_line ["encoder"; "--bogus"; "--url"])
      (parse_start empty_config)
    = Next 2 (parse_start empty_config).
Proof.
  split.
  - apply (parse_argument_passes_over _ 1 "--bogus"); [reflexivity|].
    left. apply (bool_decide_unpack _). by vm_compute.
  - apply (parse_argument_passes_over _ 2 "--url"); [reflexivity|].
    right. split; [reflexivity|]. apply (bool_decide_unpack _). by vm_compute.
Defined.



(** X5. [--vp9_disable_fpd] takes no value, but its branch still asks
    [arg_has_value]: as the last argument it is passed over and the setting
    is not made, and with an argument after it the setting is made and that
    argument is parsed as an option of its own. *)
Theorem parse_argument_disable_fpd_needs_follower
    (argv : arguments) (i : nat) (st : parse_state) :
  argv !! i = Some (Some "--vp9_disable_fpd") →
  parse_argument i argv st
  = Next i (if arg_has_value i argv
            then on_encoder (add_setting (Switch "--vp9_disable_fpd")) st
            else st)
  ∧ ((i + 1)%nat = length argv → parse_argument i argv st = Next i st).
Proof.
  intros Hi.
  assert (Hstep : parse_argument i argv st
                  = Next i (if arg_has_value i argv
                            then on_encoder (add_setting (Switch "--vp9_disable_fpd")) st
                            else st)).
  { unfold parse_argument, parse_encoder_option. rewrite Hi.
    by destruct (arg_has_value i argv). }
  split; [exact Hstep|]. intros Hlast. rewrite Hstep.
  destruct (arg_has_value i argv) eqn:Hhas; [|done].
  apply arg_has_value_Some in Hhas as [v Hv]. apply lookup_lt_Some in Hv. lia.
Qed.

(** Alone the switch does nothing; before [--dash] both take effect. *)
Lemma parse_argument_disable_fpd_needs_follower_witness :
  parse_command_line (command_line ["encoder"; "--vp9_disable_fpd"]) empty_config
  = Some (Parsed empty_config)
  ∧ parse_command_line (command_line ["encoder"; "--vp9_disable_fpd"; "--dash"])
      empty_config
    = Some (Parsed
              {| uploader_settings := empty_settings;
                 enc_config :=
                   set_dash_encode true
                     (add_setting (Switch "--vp9_disable_fpd") empty_encoder_config) |})
  ∧ parse_argument 1 (command_line ["encoder"; "--vp9_disable_fpd"])
      (parse_start empty_config)
    = Next 1 (parse_start empty_config).
Proof.
  split; [reflexivity|]. split; [reflexivity|].
  exact (proj2 (parse_argument_disable_fpd_needs_follower
                  (command_line ["encoder"; "--vp9_disable_fpd"]) 1
                  (parse_start empty_config) eq_refl) eq_refl).
Defined.

Lemma parse_argument_end (i : nat) (argv : arguments) (st : parse_state) :
  (parse_argument i argv st = Undefined →
   argv !! i = None ∨ argv !! i = Some None)
  ∧ (parse_argument i argv st = Exits →
     ∃ flag, argv !! i = Some (Some flag) ∧ flag ∈ ["-h"; "-?"; "--help"]).
Proof.
  unfold parse_argument, parse_encoder_option.
  destruct (argv !! i) as [[arg|]|]; [|by split; auto; intros [=]..].
  set (hv := arg_has_value i argv). clearbody hv.
  destruct (streq "-h" arg) eqn:H1; cbn [orb].
  { apply streq_true in H1. subst. split; [intros [=]|]. intros _. eexists.
    split; [done|]. by left. }
  destruct (streq "-?" arg) eqn:H2; cbn [orb].
  { apply streq_true in H2. subst. split; [intros [=]|]. intros _. eexists.
    split; [done|]. right. by left. }
  destruct (streq "--help" arg) eqn:H3.
  { apply streq_true in H3. subst. split; [intros [=]|]. intros _. eexists.
    split; [done|]. right. right. by left. }
  destruct (streq "--dash" arg); [split; intros [=]|].
  destruct (streq "--dash_dir" arg && hv).
  { destruct (negb _ && negb _); split; intros [=]. }
  destruct (streq "--dash_name" arg && hv); [split; intros [=]|].
  destruct (streq "--dash_start_number" arg && hv); [split; intros [=]|].
  destruct (streq "--url" arg && hv); [split; intros [=]|].
  destruct (streq "--header" arg && hv); [split; intros [=]|].
  destruct (streq "--form_post" arg && hv); [split; intros [=]|].
  destruct (streq "--var" arg && hv); [split; intros [=]|].
  destruct (streq "--stream_name" arg && hv); [split; intros [=]|].
  destruct (streq "--stream_id" arg && hv); [split; intros [=]|].
  destruct (option_kind_of arg encoder_options) as [[]|];
    try destruct hv; try destruct (streq _ kCodecVp8 || streq _ kCodecVp9);
    split; intros [=].
Qed.

Lemma command_line_lookup (args : list string) (j : nat) :
  command_line args !! j = Some <$> (args !! j).
Proof.
  revert j. induction args as [|a args IH]; intros [|j]; try done. apply IH.
Qed.

Lemma parse_loop_end (fuel i : nat) (argv : arguments) (st : parse_state) :
  (parse_loop fuel i argv st = Some LoopUndefined →
   ∃ j, (i ≤ j < length argv)%nat ∧ argv !! j = Some None)
  ∧ (parse_loop fuel i argv st = Some LoopExits →
     ∃ j flag, (i ≤ j)%nat ∧ argv !! j = Some (Some flag)
               ∧ flag ∈ ["-h"; "-?"; "--help"]).
Proof.
  revert i st. induction fuel as [|fuel IH]; intros i st; simpl.
  - case_bool_decide; split; intros [=].
  - case_bool_decide as Hlt; [|split; intros [=]].
    destruct (parse_argument i argv st) as [i' st'| |] eqn:Hstep.
    + apply parse_argument_index in Hstep.
      destruct (IH (S i') st') as [IHu IHe]. split.
      * intros (j & Hj & Hnull)%IHu. exists j. split; [lia|done].
      * intros (j & flag & Hj & Hflag)%IHe. exists j, flag. split; [lia|done].
    + split; [intros [=]|]. intros _.
      apply parse_argument_end in Hstep as (flag & Hflag & Hin).
      exists i, flag. auto.
    + split; [|intros [=]]. intros _.
      apply parse_argument_end in Hstep as [Hnone|Hnull].
      * apply lookup_ge_None in Hnone. lia.
      * exists i. auto.
Qed.

(** X6. [parse_command_line] hands a null pointer to [strcmp] only if some
    [argv[j]] with [1 <= j < argc] is null, which a command line from the C
    runtime never has; and it leaves through the usage text only if some
    argument after the program name is [-h], [-?] or [--help]. In every
    other case it returns with the configuration filled. *)
Theorem parse_command_line_ends (argv : arguments) (config0 : WebmEncoderConfig) :
  (parse_command_line argv config0 = Some UndefinedBehaviour →
   ∃ j, (1 ≤ j < length argv)%nat ∧ argv !! j = Some None)
  ∧ (parse_command_line argv config0 = Some ExitedAfterUsage →
     ∃ j flag, (1 ≤ j)%nat ∧ argv !! j = Some (Some flag)
               ∧ flag ∈ ["-h"; "-?"; "--help"])
  ∧ (∀ args, argv = command_line args →
       (∀ flag, flag ∈ ["-h"; "-?"; "--help"] → flag ∉ drop 1 args) →
       ∃ parsed, parse_command_line argv config0 = Some (Parsed parsed)).
Proof.
  assert (Hu : parse_command_line argv config0 = Some UndefinedBehaviour →
               ∃ j, (1 ≤ j < length argv)%nat ∧ argv !! j = Some None).
  { unfold parse_command_line.
    destruct (parse_loop _ _ _ _) as [[| |]|] eqn:Hloop; try discriminate.
    intros _. by apply parse_loop_end in Hloop. }
  assert (He : parse_command_line argv config0 = Some ExitedAfterUsage →
               ∃ j flag, (1 ≤ j)%nat ∧ argv !! j = Some (Some flag)
                         ∧ flag ∈ ["-h"; "-?"; "--help"]).
  { unfold parse_command_line.
    destruct (parse_loop _ _ _ _) as [[| |]|] eqn:Hloop; try discriminate.
    intros _. by apply parse_loop_end in Hloop. }
  split; [exact Hu|]. split; [exact He|].
  intros args -> Hnohelp.
  destruct (parse_command_line_total (command_line args) config0) as [[parsed| |] Hp].
  - by exists parsed.
  - destruct (He Hp) as (j & flag & Hj & Hat & Hflag). exfalso.
    rewrite command_line_lookup in Hat.
    destruct (args !! j) as [a|] eqn:Ha; [|discriminate]. injection Hat as ->.
    apply (Hnohelp flag Hflag). apply list_elem_of_lookup. exists (j - 1)%nat.
    rewrite lookup_drop. by replace (1 + (j - 1))%nat with j by lia.
  - destruct (Hu Hp) as (j & Hj & Hat). exfalso.
    rewrite command_line_lookup in Hat.
    by destruct (args !! j).
Qed.

End ParserExtras.

(** ** Headers the parser drops *)

(** The command line that gives each of [hs] to a [--header] of its own. *)
Definition header_arguments (hs : list string) : list string :=
  hs ≫= λ h, ["--header"; h].

Lemma parse_argument_header (argv : arguments) (i : nat) (h : string)
    (st : parse_state) :
  argv !! i = Some (Some "--header") → argv !! (i + 1)%nat = Some (Some h) →
  parse_argument i argv st = Next (i + 1) (push_header h st).
Proof.
  intros Hi Hv. unfold parse_argument, arg_has_value, arg_value.
  by rewrite Hi, Hv.
Qed.

Lemma parse_loop_step (fuel i : nat) (argv : arguments) (st : parse_state) :
  parse_loop (S fuel) i argv st
  = if bool_decide (i < length argv)%nat then
      match parse_argument i argv st with
      | Next i' st' => parse_loop fuel (S i') argv st'
      | Exits => Some LoopExits
      | Undefined => Some LoopUndefined
      end
    else Some (LoopDone st).
Proof. reflexivity. Qed.

Lemma parse_loop_headers (hs : list string) (before : arguments) (fuel : nat)
    (st : parse_state) :
  (2 * length hs ≤ fuel)%nat →
  parse_loop fuel (length before) (before ++ command_line (header_arguments hs)) st
  = Some (LoopDone (foldl (λ s h, push_header h s) st hs)).
Proof.
  revert before fuel st. induction hs as [|h hs IH]; intros before fuel st Hfuel.
  - simpl. rewrite app_nil_r. destruct fuel; simpl; case_bool_decide; (done || lia).
  - destruct fuel as [|fuel]; [simpl in Hfuel; lia|].
    change (command_line (header_arguments (h :: hs)))
      with (Some "--header" :: Some h :: command_line (header_arguments hs)).
    rewrite parse_loop_step.
    rewrite bool_decide_eq_true_2 by (rewrite length_app; simpl; lia).
    rewrite (parse_argument_header _ _ h).
    + replace (S (length before + 1)) with (length (before ++ [Some "--header"; Some h]))
        by (rewrite length_app; simpl; lia).
      replace (before ++ Some "--header" :: Some h :: command_line (header_arguments hs))
        with ((before ++ [Some "--header"; Some h]) ++ command_line (header_arguments hs))
        by (by rewrite <- app_assoc).
      apply IH. simpl in Hfuel. lia.
    + unfold arguments in *. by rewrite lookup_app_r, Nat.sub_diag by lia.
    + unfold arguments in *. rewrite lookup_app_r by lia.
      by replace (length before + 1 - length before)%nat with 1%nat by lia.
Qed.

Lemma foldl_push_header (hs : list string) (st : parse_state) :
  unparsed_headers (foldl (λ s h, push_header h s) st hs) = unparsed_headers st ++ hs
  ∧ unparsed_vars (foldl (λ s h, push_header h s) st hs) = unparsed_vars st
  ∧ config (foldl (λ s h, push_header h s) st hs) = config st.
Proof.
  revert st. induction hs as [|h hs IH]; intros st; simpl.
  - by rewrite app_nil_r.
  - destruct (IH (push_header h st)) as (-> & -> & ->). simpl.
    by rewrite <- app_assoc.
Qed.

(** X7. [parse_command_line] drops the status of [store_string_map_entries]:
    a [--header] value without a colon does not fail the parse. On a command
    line of [--header] options the result has the headers given before the
    malformed one, and the malformed one and every header after it are left
    out without a failure. *)
Theorem parse_command_line_drops_headers_after_bad
    (prog bad : string) (preceding following : list string)
    (config0 : WebmEncoderConfig) :
  Forall well_formed_entry preceding →
  StdString.find ":" bad = None →
  ∃ parsed,
    parse_command_line
      (command_line (prog :: header_arguments (preceding ++ bad :: following)))
      config0
    = Some (Parsed parsed)
    ∧ headers (uploader_settings parsed)
      = insert_entries preceding (headers (uploader_settings config0))
    ∧ form_variables (uploader_settings parsed)
      = form_variables (uploader_settings config0)
    ∧ enc_config parsed = enc_config config0.
Proof.
  intros Hwf Hbad. unfold parse_command_line.
  pose proof (parse_loop_headers (preceding ++ bad :: following) [Some prog]
                (length (command_line
                           (prog :: header_arguments (preceding ++ bad :: following))))
                (parse_start config0)) as Hloop.
  simpl in Hloop. simpl. rewrite Hloop.
  2: { clear. generalize (preceding ++ bad :: following). intros l.
       assert (length (header_arguments l) = 2 * length l)%nat as Hlen
         by (induction l as [|h l IH]; simpl in *; lia).
       unfold command_line. rewrite length_fmap. simpl. lia. }
  eexists. split; [done|].
  destruct (foldl_push_header (preceding ++ bad :: following) (parse_start config0))
    as (Hh & Hv & Hc).
  unfold store_user_entries. simpl. rewrite Hh, Hv, Hc. simpl.
  unfold store_string_map_entries.
  rewrite store_well_formed_prefix, store_bad_entry by done. done.
Qed.

(** The header after the malformed one is not in the map. *)
Lemma parse_command_line_drops_headers_after_bad_witness :
  ∃ parsed,
    parse_command_line
      (command_line
         ["encoder"; "--header"; "Host:a"; "--header"; "broken"; "--header"; "Late:d"])
      empty_config
    = Some (Parsed parsed)
    ∧ headers (uploader_settings parsed) !! "Host" = Some "a"
    ∧ headers (uploader_settings parsed) !! "Late" = None.
Proof.
  destruct (parse_command_line_drops_headers_after_bad
              "encoder" "broken" ["Host:a"] ["Late:d"] empty_config)
    as (parsed & Hparse & Hheaders & _).
  - repeat constructor. by eexists.
  - reflexivity.
  - exists parsed. split; [exact Hparse|]. rewrite Hheaders. split; reflexivity.
Defined.

(** ** Starting the uploader *)

Lemma url_with_query_has_query (s : HttpUploaderSettings) :
  has_query_string (url_with_query s).
Proof.
  exists (target_url s),
    ("ns=" +:+ stream_name s +:+ "&id=" +:+ stream_id s
       +:+ kAgentQueryFragment +:+ kWebmItagQueryFragment).
  reflexivity.
Qed.

Section StartUploaderFacts.

Context {U : Type}.
Context `{uploader_class : !HttpUploader.methods U}.

(** X8. [start_uploader] of the encoder driver: when the uploader's [Init]
    fails it returns that status with the configuration untouched and without
    calling [Run]; when [Init] succeeds it returns the status of [Run], and
    the target URL it leaves always has a query string, so starting an
    uploader again with the configuration it left changes the URL no more. *)
Theorem start_uploader_outcomes (ptr_config : WebmEncoderConfig) (ptr_uploader : U) :
  let init := HttpUploader.Init (uploader_settings ptr_config) ptr_uploader in
  let r := start_uploader ptr_config ptr_uploader in
  (failed init.1 = true →
   r = (init.1, ptr_config, init.2, [CallInit Uploader init.1]))
  ∧ (failed init.1 = false →
     r.1.1.1 = (HttpUploader.Run init.2).1
     ∧ r.1.2 = (HttpUploader.Run init.2).2
     ∧ r.2 = [CallInit Uploader init.1; CallRun Uploader (HttpUploader.Run init.2).1]
     ∧ has_query_string (target_url (uploader_settings r.1.1.2))
     ∧ ∀ u', failed (HttpUploader.Init (uploader_settings r.1.1.2) u').1 = false →
             (start_uploader r.1.1.2 u').1.1.2 = r.1.1.2).
Proof.
  cbv zeta.
  destruct (HttpUploader.Init (uploader_settings ptr_config) ptr_uploader)
    as [status u1] eqn:HI.
  simpl. split; intros Hstatus.
  { unfold start_uploader. by rewrite HI, Hstatus. }
  destruct (HttpUploader.Run u1) as [status2 u2] eqn:HR.
  pose (config1 :=
          match StdString.find "?" (target_url (uploader_settings ptr_config)) with
          | None =>
              {| uploader_settings :=
                   set_target_url (url_with_query (uploader_settings ptr_config))
                     (uploader_settings ptr_config);
                 enc_config := enc_config ptr_config |}
          | Some _ => ptr_config
          end).
  assert (Hr : start_uploader ptr_config ptr_uploader
               = (status2, config1, u2,
                  [CallInit Uploader status; CallRun Uploader status2])).
  { unfold start_uploader. by rewrite HI, Hstatus, HR. }
  rewrite Hr. simpl.
  assert (Hquery : has_query_string (target_url (uploader_settings config1))).
  { subst config1.
    destruct (StdString.find "?" (target_url (uploader_settings ptr_config)))
      eqn:Hfind.
    - apply has_query_string_find. by rewrite Hfind.
    - apply url_with_query_has_query. }
  repeat split; [done|].
  intros u' Hinit'. clearbody config1. unfold start_uploader.
  destruct (HttpUploader.Init (uploader_settings config1) u') as [s' u1'].
  simpl in Hinit'. rewrite Hinit'.
  apply has_query_string_find in Hquery.
  destruct (StdString.find "?" (target_url (uploader_settings config1)));
    [|done].
  by destruct (HttpUploader.Run u1').
Qed.

End StartUploaderFacts.

(** On the core: refused settings leave the configuration alone; accepted
    settings get their query string once. *)
Lemma start_uploader_outcomes_witness :
  start_uploader (uploader_class := scheduler_methods true)
    (config_for "http://example.com/up" "" "") UploadScheduler.created
  = (kInvalidArg, config_for "http://example.com/up" "" "",
     UploadScheduler.created, [CallInit Uploader kInvalidArg])
  ∧ has_query_string
      (target_url (uploader_settings
         (start_uploader (uploader_class := scheduler_methods true)
            (config_for "http://example.com/up" "42" "live")
            UploadScheduler.created).1.1.2)).
Proof.
  split.
  - exact (proj1 (start_uploader_outcomes (uploader_class := scheduler_methods true)
                    (config_for "http://example.com/up" "" "")
                    UploadScheduler.created) eq_refl).
  - exact (proj1 (proj2 (proj2 (proj2
             (proj2 (start_uploader_outcomes (uploader_class := scheduler_methods true)
                       (config_for "http://example.com/up" "42" "live")
                       UploadScheduler.created) eq_refl))))).
Defined.

(** ** What one pass of the client's loop calls *)

(** A call that stays within a read buffer of [n] bytes: [BufferData] gets
    between one and [n] bytes, and [ReadChunk] is asked for at most [n]. *)
Definition fits {Ev : Type} (n : Z) (call : @client_call Ev) : Prop :=
  match call with
  | BufferDataCall data _ => (0 < Z.of_nat (length data) ≤ n)%Z
  | ReadChunkCall len _ _ => (len ≤ n)%Z
  | _ => True
  end.

Section ClientExtras.

Context {E Cfg U B : Type}.
Context `{encoder_class : !WebmEncoder.methods E Cfg}.
Context `{uploader_class : !HttpUploader.methods U}.
Context `{buffer_class : !WebmChunkBuffer.methods B}.
Context {Ev : Type}.
Variable worker_step : Ev → U → U.
Variable CreateFile : string → Z.

Local Abbreviation client := (@client E U B Ev).
Local Abbreviation call := (@client_call Ev).

Lemma upload_attempts_app (log more : list call) :
  upload_attempts (log ++ more) = upload_attempts log ++ upload_attempts more.
Proof. apply omap_app. Qed.

Lemma fits_mono (n m : Z) (c : call) : (n ≤ m)%Z → fits n c → fits m c.
Proof. intros Hle. destruct c; simpl; lia. Qed.

(** The calls of the second half of a pass: nothing, a failed [ReadChunk],
    or a [ReadChunk] that gave [data] followed by [UploadBuffer] of the same
    [data]; the length asked is within the read buffer as the pass leaves it. *)
Definition upload_calls (n : Z) (log : list call) : Prop :=
  log = []
  ∨ (∃ len data status,
       log = [ReadChunkCall len data status] ∧ failed status = true ∧ (len ≤ n)%Z)
  ∨ (∃ len data status status',
       log = [ReadChunkCall len data status; UploadBufferCall data status']
       ∧ failed status = false ∧ (len ≤ n)%Z).

Lemma upload_next_chunk_calls (t : tick) (c : client) :
  let c' := (upload_next_chunk t c).1 in
  (read_buffer_size c ≤ read_buffer_size c')%Z
  ∧ ∃ log, calls c' = calls c ++ log ∧ upload_calls (read_buffer_size c') log.
Proof.
  cbv zeta. unfold upload_next_chunk.
  assert (Hsame : (read_buffer_size c ≤ read_buffer_size c)%Z
                  ∧ ∃ log, calls c = calls c ++ log
                           ∧ upload_calls (read_buffer_size c) log).
  { split; [lia|]. exists []. rewrite app_nil_r. split; [done|by left]. }
  destruct (HttpUploader.UploadComplete (uploader c)); [|done].
  destruct (WebmChunkBuffer.ChunkReady (chunk_buffer c)) as [len|]; [|done].
  destruct ((len >? read_buffer_size c)%Z && negb (alloc_succeeds t)); [done|].
  clear Hsame.
  set (c1 := if (len >? read_buffer_size c)%Z then _ else c).
  assert (Hc1 : calls c1 = calls c ∧ (read_buffer_size c ≤ read_buffer_size c1)%Z
                ∧ (len ≤ read_buffer_size c1)%Z).
  { subst c1. destruct (Z.gtb_spec len (read_buffer_size c)); simpl;
      (split; [done|lia]). }
  destruct Hc1 as (Hcalls & Hgrow & Hroom). clearbody c1.
  destruct (WebmChunkBuffer.ReadChunk len (chunk_buffer c1)) as [[status data] b1].
  destruct (failed status) eqn:Hstatus; simpl.
  - split; [done|]. rewrite Hcalls. eexists. split; [done|].
    right. left. eauto 10.
  - destruct (HttpUploader.UploadBuffer data _) as [status' u1].
    assert (Hlog : calls c1 ++ [ReadChunkCall len data status]
                     ++ [UploadBufferCall data status']
                   = calls c ++ [ReadChunkCall len data status;
                                 UploadBufferCall data status'])
      by (by rewrite Hcalls).
    destruct (failed status'); simpl; (split; [done|]);
      rewrite <- app_assoc, Hlog; eexists; (split; [done|]);
      right; right; eauto 10.
Qed.

(** A pass keeps the read buffer at least as large, and every call it makes
    fits the buffer as the pass leaves it; every chunk it reads it hands to
    [UploadBuffer]. *)
Lemma polling_pass_calls (t : tick) (c : client) :
  let c' := (polling_pass t c).1 in
  (read_buffer_size c ≤ read_buffer_size c')%Z
  ∧ ∃ log, calls c' = calls c ++ log
           ∧ Forall (fits (read_buffer_size c')) log
           ∧ upload_attempts log = read_chunks log.
Proof.
  cbv zeta.
  assert (Hupload : ∀ c0 : client,
            (read_buffer_size c0 ≤ read_buffer_size (upload_next_chunk t c0).1)%Z
            ∧ ∃ log, calls (upload_next_chunk t c0).1 = calls c0 ++ log
                     ∧ Forall (fits (read_buffer_size (upload_next_chunk t c0).1)) log
                     ∧ upload_attempts log = read_chunks log).
  { intros c0. destruct (upload_next_chunk_calls t c0) as (Hgrow & log & Hlog & Hshape).
    split; [done|]. exists log. split; [done|].
    destruct Hshape as [->|[(len & data & status & -> & Hst & Hlen)
                           |(len & data & status & status' & -> & Hst & Hlen)]].
    - done.
    - split; [by repeat constructor|]. simpl. by rewrite Hst.
    - split; [by repeat constructor|]. simpl. by rewrite Hst. }
  unfold polling_pass.
  set (data := take (Z.to_nat (read_buffer_size c)) (file_data t)).
  destruct (Z.gtb_spec (Z.of_nat (length data)) 0) as [Hread|_]; [|apply Hupload].
  assert (Hdata : (0 < Z.of_nat (length data) ≤ read_buffer_size c)%Z).
  { split; [lia|]. subst data. rewrite length_take in *. lia. }
  destruct (WebmChunkBuffer.BufferData data (chunk_buffer c)) as [status b1].
  destruct (failed status).
  - simpl. split; [lia|]. exists [BufferDataCall data status].
    split; [done|]. split; [|done]. constructor; [simpl; lia|constructor].
  - destruct (Hupload (with_chunk_buffer b1 [BufferDataCall data status] c))
      as (Hgrow & log & Hlog & Hfits & Hreads).
    simpl in Hgrow. split; [done|].
    exists ([BufferDataCall data status] ++ log). rewrite Hlog. simpl.
    rewrite <- app_assoc. split; [done|]. split; [|done].
    constructor; [simpl; lia|done].
Qed.

(** X9. In the client's loop the read buffer never shrinks; [BufferData] is
    always given at least one byte and at most the size of the read buffer,
    and [ReadChunk] is never asked for more than the read buffer holds: the
    buffer is grown to the length of the ready chunk before a longer chunk
    is read into it. *)
Theorem polling_loop_stays_within_read_buffer (ticks : list tick) (c : client) :
  Forall (fits (read_buffer_size c)) (calls c) →
  let c' := (polling_loop worker_step ticks c).2 in
  (read_buffer_size c ≤ read_buffer_size c')%Z
  ∧ Forall (fits (read_buffer_size c')) (calls c').
Proof.
  intros Hc.
  apply (polling_loop_invariant worker_step
           (λ c', (read_buffer_size c ≤ read_buffer_size c')%Z
                  ∧ Forall (fits (read_buffer_size c')) (calls c'))).
  - intros t c1 [Hgrow Hfits].
    destruct (polling_pass_calls t c1) as (Hgrow' & log & -> & Hlog & _).
    split; [lia|]. apply Forall_app. split; [|done].
    eapply Forall_impl; [done|]. intros x. by apply fits_mono.
  - intros t c1 [Hgrow Hfits]. split; [done|]. simpl.
    apply Forall_app. split; [done|]. apply Forall_fmap, Forall_true. done.
  - split; [lia|done].
Qed.

(** Every chunk a run reads out of the chunk buffer is handed to
    [UploadBuffer], whole and in the order read, and nothing else is. *)
Lemma polling_loop_hands_over (ticks : list tick) (c : client) :
  upload_attempts (calls c) = read_chunks (calls c) →
  upload_attempts (calls (polling_loop worker_step ticks c).2)
  = read_chunks (calls (polling_loop worker_step ticks c).2).
Proof.
  apply (polling_loop_invariant worker_step
           (λ c', upload_attempts (calls c') = read_chunks (calls c'))).
  - intros t c1 Hc1.
    destruct (polling_pass_calls t c1) as (_ & log & -> & _ & Hlog).
    by rewrite upload_attempts_app, read_chunks_app, Hc1, Hlog.
  - intros t c1 Hc1. simpl. rewrite upload_attempts_app, read_chunks_app, Hc1.
    f_equal. induction (worker t) as [|e l IH]; [done|exact IH].
Qed.

(** X10. In every run of [client_main], with any uploader and chunk buffer,
    the data given to [UploadBuffer] is, call for call and in order, the
    data of the successful [ReadChunk] calls: a chunk read is always handed
    on, unchanged, and nothing is uploaded that was not read. *)
Theorem client_main_uploads_what_it_reads
    (uploader_settings : HttpUploaderSettings) (encoder_settings : Cfg)
    (encoder0 : E) (uploader0 : U) (chunk_buffer0 : B)
    (read_buf_allocated : bool) (ticks : list tick) :
  let run := (client_main worker_step CreateFile uploader_settings
                encoder_settings encoder0 uploader0 chunk_buffer0
                read_buf_allocated ticks).2 in
  upload_attempts run = read_chunks run.
Proof.
  unfold client_main, start_encoder, client_start_uploader. cbv zeta.
  repeat case_match; simplify_eq; try done.
  all: match goal with
       | H : polling_loop _ _ ?c0 = (_, ?c) |- _ =>
           pose proof (polling_loop_hands_over ticks c0 eq_refl) as Hloop;
           rewrite H in Hloop; simpl in Hloop
       end.
  all: simpl; by rewrite upload_attempts_app, read_chunks_app, Hloop.
Qed.

(** X11. A pass in which [BufferData] fails leaves the loop at once, making
    no other call, and with the exit code still [EXIT_SUCCESS]; every other
    [break] of the loop gives [EXIT_FAILURE]. *)
Theorem polling_pass_break_codes (t : tick) (c : client) :
  let data := take (Z.to_nat (read_buffer_size c)) (file_data t) in
  let written := WebmChunkBuffer.BufferData data (chunk_buffer c) in
  ((Z.of_nat (length data) >? 0)%Z = true → failed written.1 = true →
   polling_pass t c
   = (with_chunk_buffer written.2 [BufferDataCall data written.1] c,
      Some EXIT_SUCCESS)
   ∧ ∀ rest, polling_loop worker_step (t :: rest) c
             = (EXIT_SUCCESS,
                with_chunk_buffer written.2 [BufferDataCall data written.1] c))
  ∧ (∀ c' code, polling_pass t c = (c', Some code) →
       code = EXIT_FAILURE
       ∨ (code = EXIT_SUCCESS ∧ (Z.of_nat (length data) >? 0)%Z = true
          ∧ failed written.1 = true)).
Proof.
  cbv zeta. split.
  - intros Hread Hfailed.
    assert (Hpass : polling_pass t c
              = (with_chunk_buffer
                   (WebmChunkBuffer.BufferData
                      (take (Z.to_nat (read_buffer_size c)) (file_data t))
                      (chunk_buffer c)).2
                   [BufferDataCall
                      (take (Z.to_nat (read_buffer_size c)) (file_data t))
                      (WebmChunkBuffer.BufferData
                         (take (Z.to_nat (read_buffer_size c)) (file_data t))
                         (chunk_buffer c)).1] c,
                 Some EXIT_SUCCESS)).
    { unfold polling_pass. rewrite Hread.
      destruct (WebmChunkBuffer.BufferData _ _) as [status b1].
      simpl in *. by rewrite Hfailed. }
    split; [exact Hpass|]. intros rest. simpl. by rewrite Hpass.
  - intros c' code. unfold polling_pass, upload_next_chunk.
    destruct (Z.of_nat (length _) >? 0)%Z.
    + destruct (WebmChunkBuffer.BufferData _ _) as [status b1]. simpl.
      destruct (failed status); [intros [= <- <-]; auto|].
      repeat case_match; intros [= <- <-]; auto.
    + repeat case_match; intros [= <- <-]; auto.
Qed.

End ClientExtras.

(** A first pass that finds [abc] in the file buffers three bytes, within
    the read buffer of [kReadBufferSize] bytes. *)
Lemma polling_loop_stays_within_read_buffer_witness :
  let c := client_at_loop (E := unit) (Ev := UploadScheduler.worker_event)
             tt UploadScheduler.created
             (Some {| ChunkBuffer.capacity := 1024; ChunkBuffer.assembling := [];
                      ChunkBuffer.ready := [] |}) [] in
  let c' := (polling_loop (uploader_class := scheduler_methods true)
               (buffer_class := chunk_buffer_methods 1024 (λ _, false))
               UploadScheduler.worker_step
               [{| file_data := ["a"; "b"; "c"]%byte; alloc_succeeds := true;
                   worker := [] |}] c).2 in
  Forall (fits (read_buffer_size c)) (calls c)
  ∧ (read_buffer_size c ≤ read_buffer_size c')%Z
  ∧ Forall (fits (read_buffer_size c')) (calls c').
Proof.
  cbv zeta. split; [constructor|].
  apply (polling_loop_stays_within_read_buffer
           (uploader_class := scheduler_methods true)
           (buffer_class := chunk_buffer_methods 1024 (λ _, false))).
  constructor.
Defined.

(** ** Every component started is stopped *)

Section StopBalance.

Context {E U : Type}.
Context `{encoder_class : !WebmEncoder.methods E (EncoderConfig * U)}.
Context `{uploader_class : !HttpUploader.methods U}.
Context {Bg : Type}.
Variable background : Bg → E * U → E * U.

(** X12. On every path through [encoder_main], the failing ones included,
    [Stop] is called on exactly the components whose [Run] returned success,
    once each and in the reverse of the order they were started in; a
    component whose [Init] or [Run] failed is never stopped. *)
Theorem encoder_main_stops_what_it_started (config : WebmEncoderConfig)
    (encoder : E) (uploader : U) (ticks : list Bg) :
  let run := (encoder_main background config encoder uploader ticks).2 in
  stopped run = reverse (started run).
Proof.
  unfold encoder_main, start_uploader. cbv zeta.
  repeat case_match; simplify_eq; try congruence; simpl.
  all: unfold started, stopped; rewrite ?omap_app; simpl.
  all: repeat match goal with H : failed ?s = _ |- context [failed ?s] => rewrite H end.
  all: done.
Qed.

End StopBalance.

Section ClientStopBalance.

Context {E Cfg U B : Type}.
Context `{encoder_class : !WebmEncoder.methods E Cfg}.
Context `{uploader_class : !HttpUploader.methods U}.
Context `{buffer_class : !WebmChunkBuffer.methods B}.
Context {Ev : Type}.
Variable worker_step : Ev → U → U.
Variable CreateFile : string → Z.

(** X13. On every path through [client_main], [Stop] is called on exactly
    the components whose [Run] returned success, once each. A run that
    leaves before the prompt of the loop stops them in the reverse of the
    start order; a run that leaves after it stops them in the start order. *)
Theorem client_main_stops_what_it_started
    (uploader_settings : HttpUploaderSettings) (encoder_settings : Cfg)
    (encoder0 : E) (uploader0 : U) (chunk_buffer0 : B)
    (read_buf_allocated : bool) (ticks : list (@tick Ev)) :
  let run := lifecycle_calls
               (client_main worker_step CreateFile uploader_settings
                  encoder_settings encoder0 uploader0 chunk_buffer0
                  read_buf_allocated ticks).2 in
  stopped run ≡ₚ started run
  ∧ match after_prompt run with
    | None => stopped run = reverse (started run)
    | Some _ => stopped run = started run
    end.
Proof.
  unfold client_main, start_encoder, client_start_uploader. cbv zeta.
  repeat case_match; simplify_eq; try congruence.
  all: repeat match goal with
       | H : polling_loop _ _ ?c0 = (_, ?c) |- _ =>
           let Hcalls := fresh "Hcalls" in
           pose proof (polling_loop_lifecycle worker_step ticks c0) as Hcalls;
           rewrite H in Hcalls; simpl in Hcalls; clear H
       end.
  all: simpl in *; rewrite ?lifecycle_calls_app in *; simpl in *.
  all: repeat match goal with
       | H : lifecycle_calls _ = _ |- _ => rewrite H in *; clear H
       end.
  all: simpl in *.
  all: repeat match goal with
       | H : failed ?s = _ |- _ => rewrite ?H in *; revert H
       end; intros; simpl in *.
  all: simplify_eq; try done.
  all: try (split; [|done]); try apply Permutation_swap.
Qed.

End ClientStopBalance.

(** ** What [_tmain] checks before it starts anything *)

Section StoreStatus.

Variables (status_success status_bad_format : Z).

Lemma store_entries_status_cases (entries : list string)
    (out_map : gmap string string) :
  (store_entries status_success status_bad_format entries out_map).1 = status_success
  ∨ (store_entries status_success status_bad_format entries out_map).1
    = status_bad_format.
Proof.
  revert out_map. induction entries as [|entry entries IH]; intros out_map; simpl.
  - by left.
  - destruct (StdString.find ":" entry); [apply IH|by right].
Qed.

End StoreStatus.

Lemma client_store_failed (entries : list string) (out_map : gmap string string) :
  failed (client_store_string_map_entries entries out_map).1 = false
  ↔ Forall well_formed_entry entries.
Proof.
  rewrite <- (store_entries_status ERROR_SUCCESS ERROR_BAD_FORMAT ltac:(done)
                entries out_map).
  unfold client_store_string_map_entries.
  destruct (store_entries_status_cases ERROR_SUCCESS ERROR_BAD_FORMAT entries out_map)
    as [-> | ->]; done.
Qed.

(** The command lines [_tmain] accepts: no [--help], a [--file] and a
    [--url], and a colon in every [--header] and [--var]. *)
Definition accepted (var_map : variables_map) : Prop :=
  opt_help var_map = false
  ∧ is_Some (opt_file var_map)
  ∧ is_Some (opt_url var_map)
  ∧ Forall well_formed_entry (default [] (opt_header var_map))
  ∧ Forall well_formed_entry (default [] (opt_var var_map)).

Section TmainFacts.

Context {E U B : Type}.
Context `{encoder_class : !WebmEncoder.methods E WebmEncoderSettings}.
Context `{uploader_class : !HttpUploader.methods U}.
Context `{buffer_class : !WebmChunkBuffer.methods B}.
Context {Ev : Type}.
Variable worker_step : Ev → U → U.
Variable CreateFile : string → Z.

(** X14. [_tmain] touches the file, the encoder, the uploader and the chunk
    buffer only for an accepted command line: with [--help], without
    [--file] or [--url], or with a [--header] or [--var] that has no colon,
    it returns [EXIT_FAILURE] having called nothing. For an accepted one it
    is [client_main] on the settings with the file, the URL and every header
    and form variable stored, and the encoder writes to the same file. *)
Theorem _tmain_starts_only_accepted (var_map : variables_map)
    (settings0 : HttpUploaderSettings) (encoder0 : E) (uploader0 : U)
    (chunk_buffer0 : B) (read_buf_allocated : bool) (ticks : list (@tick Ev)) :
  (¬ accepted var_map →
   _tmain worker_step CreateFile var_map settings0 encoder0 uploader0
     chunk_buffer0 read_buf_allocated ticks = (EXIT_FAILURE, []))
  ∧ (∀ file url,
       opt_help var_map = false →
       opt_file var_map = Some file →
       opt_url var_map = Some url →
       Forall well_formed_entry (default [] (opt_header var_map)) →
       Forall well_formed_entry (default [] (opt_var var_map)) →
       _tmain worker_step CreateFile var_map settings0 encoder0 uploader0
         chunk_buffer0 read_buf_allocated ticks
       = client_main worker_step CreateFile
           {| local_file := file; target_url := url;
              headers := insert_entries (default [] (opt_header var_map))
                           (headers settings0);
              form_variables := insert_entries (default [] (opt_var var_map))
                                  (form_variables settings0);
              post_mode := post_mode settings0;
              stream_name := stream_name settings0;
              stream_id := stream_id settings0 |}
           {| output_file_name := file;
              keyframe_interval := kDefaultKeyframeInterval |}
           encoder0 uploader0 chunk_buffer0 read_buf_allocated ticks).
Proof.
  split.
  - intros Hno. unfold _tmain.
    destruct (opt_help var_map) eqn:Hhelp; [done|].
    destruct (opt_file var_map) as [file|] eqn:Hfile; [|done].
    destruct (opt_url var_map) as [url|] eqn:Hurl; [|done].
    set (settings1 := set_target_url url (set_local_file file settings0)).
    destruct (opt_header var_map) as [headers_given|] eqn:Hheader.
    + pose proof (client_store_failed headers_given (headers settings1)) as Hh.
      destruct (client_store_string_map_entries headers_given (headers settings1))
        as [status m]. simpl in Hh.
      destruct (failed status); [done|].
      destruct (opt_var var_map) as [form_vars|] eqn:Hvar.
      * pose proof (client_store_failed form_vars
                      (form_variables (set_headers m settings1))) as Hv.
        destruct (client_store_string_map_entries form_vars _) as [status' m'].
        simpl in Hv. destruct (failed status'); [done|].
        destruct Hno. unfold accepted.
        rewrite Hhelp, Hfile, Hurl, Hheader, Hvar. simpl.
        split; [done|]. split; [by eexists|]. split; [by eexists|].
        split; [by apply Hh|by apply Hv].
      * destruct Hno. unfold accepted.
        rewrite Hhelp, Hfile, Hurl, Hheader, Hvar. simpl.
        split; [done|]. split; [by eexists|]. split; [by eexists|].
        split; [by apply Hh|constructor].
    + simpl.
      destruct (opt_var var_map) as [form_vars|] eqn:Hvar.
      * pose proof (client_store_failed form_vars (form_variables settings1)) as Hv.
        destruct (client_store_string_map_entries form_vars _) as [status' m'].
        simpl in Hv. destruct (failed status'); [done|].
        destruct Hno. unfold accepted.
        rewrite Hhelp, Hfile, Hurl, Hheader, Hvar. simpl.
        split; [done|]. split; [by eexists|]. split; [by eexists|].
        split; [constructor|by apply Hv].
      * destruct Hno. unfold accepted.
        rewrite Hhelp, Hfile, Hurl, Hheader, Hvar. simpl.
        split; [done|]. split; [by eexists|]. split; [by eexists|].
        split; constructor.
  - intros file url Hhelp Hfile Hurl Hheaders Hvars. unfold _tmain.
    rewrite Hhelp, Hfile, Hurl.
    destruct (opt_header var_map) as [headers_given|];
      destruct (opt_var var_map) as [form_vars|]; simpl in *.
    all: unfold client_store_string_map_entries.
    all: rewrite ?(store_entries_all ERROR_SUCCESS ERROR_BAD_FORMAT _ _ Hheaders).
    all: simpl.
    all: rewrite ?(store_entries_all ERROR_SUCCESS ERROR_BAD_FORMAT _ _ Hvars).
    all: done.
Qed.

End TmainFacts.
